(** * diskover socket server: a shallow embedding of [diskover_socket_server.py]

    The server accepts TCP connections, hands each one to a pool of worker
    threads through a bounded queue, reads one request per connection and
    either answers a ping or decodes a JSON command and runs it
    ([run_command]), which may spawn an external diskover process.

    The embedding keeps the shape of the Python code:
    - Python values coming out of [json.loads] are the inductive [pyval];
      a [dict] is a [gmap string pyval];
    - exceptions are the type [exn]; a computation is a function from the
      [World] to a [result] and a new [World] (a state and error monad), and
      [try]/[except] is the combinator [try_except];
    - every call that leaves the program (socket, clock, uuid, subprocess) is
      answered by the environment [Env] as a function of the history so far,
      and is appended to the [trace] together with its answer;
    - the two module globals [socket_tasks] and [clientlist] are fields of the
      [World];
    - the acceptor loop of [start_socket_server] and the worker threads are
      the step relation [step] on the state [Server].

    The class hierarchy of exceptions is that of Python 3.  Calls to [logger]
    are left out: they have no effect on sockets, processes or the globals. *)

From Stdlib Require Import Ascii.
From stdpp Require Import gmap strings list pretty.

Set Warnings "-register-all".
Open Scope string_scope.
Open Scope list_scope.

(** ** Python values *)

(** What [json.loads] can return.  A [str] is kept as its UTF-8 encoding (the
    encoding is injective and ASCII bytes never occur inside a multi-byte
    sequence, so equality with ASCII literals and splitting at ASCII
    separators agree with the code-point versions).  A [float] is kept as its
    [repr], which determines it. *)
Inductive pyval :=
| PyNone
| PyBool (b : bool)
| PyInt (z : Z)
| PyFloat (r : string)
| PyStr (s : string)
| PyList (l : list pyval)
| PyDict (d : gmap string pyval).

(** The exception classes the program can meet.  On Python 3 [socket.error]
    is [OSError]; [json.JSONDecodeError] and [UnicodeDecodeError] are
    subclasses of [ValueError]; [KeyError] is a [LookupError] and is neither a
    [ValueError] nor an [OSError]. *)
Inductive exn := KeyError | TypeError | ValueError | OSError.

Inductive result (A : Type) :=
| Ok (a : A)
| Raise (e : exn).
Arguments Ok {A} a.
Arguments Raise {A} e.

(** [v == 'literal'] for a string literal: true exactly for the [str] with the
    same characters. *)
Definition py_eq_str (v : pyval) (lit : string) : bool :=
  match v with
  | PyStr s => String.eqb s lit
  | _ => false
  end.

(** [v[key]]: subscripting with a [str] key.  A missing key of a [dict] raises
    [KeyError]; every other JSON value ([list], [str], numbers, [bool],
    [None]) raises [TypeError]. *)
Definition py_getitem (v : pyval) (key : string) : result pyval :=
  match v with
  | PyDict d =>
      match d !! key with
      | Some x => Ok x
      | None => Raise KeyError
      end
  | _ => Raise TypeError
  end.

(** ** UTF-8 ([bytes.decode('utf-8')], strict) *)

Definition byte_in (lo hi : N) (c : ascii) : bool :=
  let n := N_of_ascii c in (lo <=? n)%N && (n <=? hi)%N.

Definition is_cont : ascii → bool := byte_in 128 191.

(** Well-formed UTF-8 byte sequences (Unicode table 3-7): no overlong forms,
    no surrogates, nothing above U+10FFFF. *)
Fixpoint utf8_valid_go (pending : list (ascii → bool)) (s : string) : bool :=
  match s with
  | EmptyString => match pending with [] => true | _ => false end
  | String c s' =>
      match pending with
      | p :: ps => p c && utf8_valid_go ps s'
      | [] =>
          if byte_in 0 127 c then utf8_valid_go [] s'
          else if byte_in 194 223 c then utf8_valid_go [is_cont] s'
          else if byte_in 224 224 c then utf8_valid_go [byte_in 160 191; is_cont] s'
          else if byte_in 225 236 c then utf8_valid_go [is_cont; is_cont] s'
          else if byte_in 237 237 c then utf8_valid_go [byte_in 128 159; is_cont] s'
          else if byte_in 238 239 c then utf8_valid_go [is_cont; is_cont] s'
          else if byte_in 240 240 c then utf8_valid_go [byte_in 144 191; is_cont; is_cont] s'
          else if byte_in 241 243 c then utf8_valid_go [is_cont; is_cont; is_cont] s'
          else if byte_in 244 244 c then utf8_valid_go [byte_in 128 143; is_cont; is_cont] s'
          else false
      end
  end.

Definition utf8_valid : string → bool := utf8_valid_go [].

(** [data.decode('utf-8')]: [UnicodeDecodeError] (a [ValueError]) on
    ill-formed input. *)
Definition bytes_decode (data : string) : result string :=
  if utf8_valid data then Ok data else Raise ValueError.

(** ** [str.split(sep)] *)

Fixpoint is_prefix (p s : string) : bool :=
  match p, s with
  | EmptyString, _ => true
  | String a p', String b s' => Ascii.eqb a b && is_prefix p' s'
  | String _ _, EmptyString => false
  end.

(** Left-to-right, non-overlapping split at a non-empty separator.  [skip]
    counts the separator characters still to be dropped, [cur] is the segment
    being read. *)
Fixpoint split_go (sep : string) (skip : nat) (cur : string) (s : string)
  : list string :=
  match s with
  | EmptyString => [cur]
  | String c s' =>
      match skip with
      | S k => split_go sep k cur s'
      | O =>
          if is_prefix sep s
          then cur :: split_go sep (String.length sep - 1) "" s'
          else split_go sep 0 (cur +:+ String c "") s'
      end
  end.

Definition str_split (s sep : string) : list string := split_go sep 0 "" s.

(** [l[-1]] on the never-empty result of [split]. *)
Definition last_item (l : list string) : string := List.last l "".

Definition CRLF : string := String "013" (String "010" "").
Definition LF : string := String "010" "".

(** ** The world outside the program *)

(** A queued connection, the Python list [[clientsock, addr]].  Sockets and
    child processes are identified by numbers. *)
Record client := Client { clientsock : nat; addr : string }.

Definition process := nat.

(** Where a child's stdout or stderr goes: [subprocess.PIPE], the stream is
    captured and read back by [communicate()], or the default, the stream of
    the server is inherited. *)
Inductive stdio := PIPE | INHERIT.

(** One entry per operation that leaves the function being run: the calls
    answered by the outside world, with the answer they got, and the writes to
    the module globals. *)
Inductive event :=
| EvAccept (c : client)
| EvPut (c : client)
| EvRecv (sock : nat) (bufsize : nat) (r : result string)
| EvSend (sock : nat) (message : string) (r : result ())
| EvClose (sock : nat)
| EvTaskDone
| EvTime (t : Z)
| EvUuid (taskid : string)
| EvPopen (cmd : list pyval) (r : result process)
| EvRegister (taskid : string) (p : process)
| EvCommunicate (p : process) (output error : string) (returncode : Z).

(** Everything [run_command] and the handler take from outside.  The
    [diskover] module ([config], [get_time]) is not part of this file and is
    a parameter, so are the caller's [cliargs], the Python library calls, and
    the answers of the operating system, which may depend on all that
    happened before.  A socket call either goes through or raises
    [socket.error]; [json.loads] either decodes its text or raises
    [ValueError]; [Popen] may raise any exception (for one, [TypeError] when
    an element of [cmd] is not a string, [ValueError] when one holds a NUL,
    [OSError] when the program cannot be started).  [config] is taken to
    hold its three keys and [cliargs] its two.  Clock readings are kept
    abstract (an integer code of the float); the program only hands two of
    them to [get_time]. *)
Record Env := {
  config_index : pyval;              (* diskover.config['index'] *)
  config_python_path : pyval;        (* diskover.config['python_path'] *)
  config_diskover_path : pyval;      (* diskover.config['diskover_path'] *)
  cliargs_batchsize : pyval;         (* cliargs['batchsize'] *)
  cliargs_adaptivebatch : pyval;     (* cliargs['adaptivebatch'] *)
  json_loads : string → option pyval;     (* json.loads; None: ValueError *)
  py_repr : pyval → string;                       (* str() of a list or dict *)
  get_time_str : Z → Z → string;     (* str(diskover.get_time(stop - start)) *)
  sock_recv : list event → nat → nat → option string;  (* None: socket.error *)
  sock_send : list event → nat → string → bool;        (* false: socket.error *)
  time_time : list event → Z;
  uuid4 : list event → string;
  popen : list event → list pyval → stdio → stdio → result process;
  communicate : list event → process → string * string * Z;
}.

(** The module globals and the history. *)
Record World := {
  socket_tasks : gmap string process;
  clientlist : list client;
  trace : list event;
}.

Definition log_event (ev : event) (w : World) : World :=
  {| socket_tasks := socket_tasks w;
     clientlist := clientlist w;
     trace := trace w ++ [ev] |}.

(** ** Computations: state and exceptions *)

Definition M (A : Type) : Type := World → result A * World.

Definition ret {A} (a : A) : M A := λ w, (Ok a, w).

Definition raise {A} (e : exn) : M A := λ w, (Raise e, w).

Definition bind {A B} (m : M A) (k : A → M B) : M B :=
  λ w, match m w with
       | (Ok a, w') => k a w'
       | (Raise e, w') => (Raise e, w')
       end.

Declare Scope py_scope.
Delimit Scope py_scope with py.
Notation "x <- m ;; k" := (bind m (λ x, k))
  (at level 100, m at next level, right associativity) : py_scope.
Notation "m ;;; k" := (bind m (λ _, k))
  (at level 100, right associativity) : py_scope.
Open Scope py_scope.

(** A pure step that may raise. *)
Definition lift {A} (r : result A) : M A := λ w, (r, w).

(** [try: body  except ...: handler]: [handlers e] is the suite of the first
    [except] clause matching [e], if any.  An exception raised inside a
    handler is not offered to the sibling clauses. *)
Definition try_except {A} (body : M A) (handlers : exn → option (M A)) : M A :=
  λ w, match body w with
       | (Ok a, w') => (Ok a, w')
       | (Raise e, w') =>
           match handlers e with
           | Some h => h w'
           | None => (Raise e, w')
           end
       end.

(** ** Primitive operations *)

Section Primitives.
Context (env : Env).

(** [str(v)] *)
Definition py_str (v : pyval) : string :=
  match v with
  | PyNone => "None"
  | PyBool true => "True"
  | PyBool false => "False"
  | PyInt z => pretty z
  | PyFloat r => r
  | PyStr s => s
  | PyList _ | PyDict _ => py_repr env v
  end.

Definition recv (sock bufsize : nat) : M string :=
  λ w, let r := match sock_recv env (trace w) sock bufsize with
                | Some data => Ok data
                | None => Raise OSError
                end in
       (r, log_event (EvRecv sock bufsize r) w).

Definition send (sock : nat) (message : string) : M () :=
  λ w, let r := if sock_send env (trace w) sock message
                then Ok () else Raise OSError in
       (r, log_event (EvSend sock message r) w).

(** [json.loads(data)] *)
Definition loads (data : string) : M pyval :=
  lift (match json_loads env data with
        | Some v => Ok v
        | None => Raise ValueError
        end).

Definition close (sock : nat) : M () :=
  λ w, (Ok (), log_event (EvClose sock) w).

Definition task_done : M () :=
  λ w, (Ok (), log_event EvTaskDone w).

Definition time_now : M Z :=
  λ w, let t := time_time env (trace w) in (Ok t, log_event (EvTime t) w).

(** [str(uuid.uuid4()).encode('utf-8')] *)
Definition new_taskid : M string :=
  λ w, let u := uuid4 env (trace w) in (Ok u, log_event (EvUuid u) w).

(** [subprocess.Popen(cmd, stdout=..., stderr=...)] *)
Definition Popen (cmd : list pyval) (stdout stderr : stdio) : M process :=
  λ w, let r := popen env (trace w) cmd stdout stderr in
       (r, log_event (EvPopen cmd r) w).

(** [socket_tasks[taskid] = process] *)
Definition register (taskid : string) (p : process) : M () :=
  λ w, (Ok (),
        {| socket_tasks := <[taskid := p]> (socket_tasks w);
           clientlist := clientlist w;
           trace := trace w ++ [EvRegister taskid p] |}).

(** [process.communicate()] followed by [process.returncode] *)
Definition process_communicate (p : process) : M (string * string * Z) :=
  λ w, let '(out, err, rc) := communicate env (trace w) p in
       (Ok (out, err, rc), log_event (EvCommunicate p out err rc) w).

End Primitives.

(** ** Reply frames *)

Definition DQ : string := String "034" "".

(** A double-quoted JSON string literal as it is spelled in the source. *)
Definition q (s : string) : string := DQ +:+ s +:+ DQ.

(** [b'{"msg": "taskkilled"}\n'] *)
Definition msg_taskkilled : string :=
  "{" +:+ q "msg" +:+ ": " +:+ q "taskkilled" +:+ "}" +:+ LF.

(** [b'{"error": "unknown action"}\n'] *)
Definition msg_unknown_action : string :=
  "{" +:+ q "error" +:+ ": " +:+ q "unknown action" +:+ "}" +:+ LF.

(** [b'{"error": "value error"}\n'] *)
Definition msg_value_error : string :=
  "{" +:+ q "error" +:+ ": " +:+ q "value error" +:+ "}" +:+ LF.

(** [b'{"msg": "taskstart", "taskid": "' + taskid + b'"}\n'] *)
Definition msg_taskstart (taskid : string) : string :=
  ("{" +:+ q "msg" +:+ ": " +:+ q "taskstart" +:+ ", " +:+ q "taskid" +:+ ": " +:+ DQ)
  +:+ taskid +:+ (DQ +:+ "}" +:+ LF).

(** [b'{"msg": "taskfinish", "taskid": "%s", "exitcode": %s, "elapsedtime": "%s"}\n'
      % (taskid, exitcode, elapsedtime)] *)
Definition msg_taskfinish (taskid exitcode elapsedtime : string) : string :=
  ("{" +:+ q "msg" +:+ ": " +:+ q "taskfinish" +:+ ", " +:+ q "taskid" +:+ ": " +:+ DQ)
  +:+ taskid
  +:+ (DQ +:+ ", " +:+ q "exitcode" +:+ ": ")
  +:+ exitcode
  +:+ (", " +:+ q "elapsedtime" +:+ ": " +:+ DQ)
  +:+ elapsedtime
  +:+ (DQ +:+ "}" +:+ LF).

(** [b'{"msg": "error", "error": '], the left operand of the concatenation in
    the handler's [except (ValueError, TypeError)] clause. *)
Definition msg_error_head : string :=
  "{" +:+ q "msg" +:+ ": " +:+ q "error" +:+ ", " +:+ q "error" +:+ ": ".

(** ** The program *)

Section Program.
Context (env : Env).

(** [try: x = str(command_dict[key])  except KeyError: x = str(default)] *)
Definition resolve (command_dict : pyval) (key : string) (default : pyval)
  : M string :=
  try_except
    (v <- lift (py_getitem command_dict key);; ret (py_str env v))
    (λ e, match e with
          | KeyError => Some (ret (py_str env default))
          | _ => None
          end).

(** The [if]/[elif] chain of [run_command] (source lines 193-234).  It
    yields [Some cmd] where the source falls through to the code that runs
    [cmd], and [None] where the source has sent its reply and executes
    [return]. *)
Definition select_command (threadnum : nat) (command_dict : pyval)
    (clientsock : nat) (index batchsize : string)
  : M (option (list pyval)) :=
  action <- lift (py_getitem command_dict "action");;
  let pythonpath := config_python_path env in
  let diskoverpath := config_diskover_path env in
  if py_eq_str action "crawl" then
    path <- lift (py_getitem command_dict "path");;
    ret (Some [pythonpath; PyStr "-u"; diskoverpath; PyStr "-b"; PyStr batchsize;
               PyStr "-i"; PyStr index; PyStr "-d"; path; PyStr "-q"])
  else if py_eq_str action "finddupes" then
    ret (Some [pythonpath; PyStr "-u"; diskoverpath; PyStr "-b"; PyStr batchsize;
               PyStr "-i"; PyStr index; PyStr "--finddupes"; PyStr "-q"])
  else if py_eq_str action "reindex" then
    recursive <- try_except
                   (lift (py_getitem command_dict "recursive"))
                   (λ e, match e with
                         | KeyError => Some (ret (PyStr "false"))
                         | _ => None
                         end);;
    path <- lift (py_getitem command_dict "path");;
    if py_eq_str recursive "true" then
      ret (Some [pythonpath; PyStr "-u"; diskoverpath; PyStr "-b"; PyStr batchsize;
                 PyStr "-i"; PyStr index; PyStr "-d"; path; PyStr "-R"; PyStr "-q"])
    else
      ret (Some [pythonpath; PyStr "-u"; diskoverpath; PyStr "-b"; PyStr batchsize;
                 PyStr "-i"; PyStr index; PyStr "-d"; path; PyStr "-r"; PyStr "-q"])
  else if py_eq_str action "kill" then
    taskid <- lift (py_getitem command_dict "taskid");;
    send env clientsock msg_taskkilled;;;
    ret None
  else
    send env clientsock msg_unknown_action;;;
    ret None.

(** [adaptivebatch == "True" or adaptivebatch == "true"] *)
Definition adaptive_on (adaptivebatch : string) : bool :=
  String.eqb adaptivebatch "True" || String.eqb adaptivebatch "true".

(** Source lines 236-270: add the adaptive-batch flag, start the process,
    register it, announce it, wait for it, report it. *)
Definition run_task (clientsock : nat) (adaptivebatch : string)
    (cmd : list pyval) : M () :=
  let cmd := if adaptive_on adaptivebatch then cmd ++ [PyStr "-a"] else cmd in
  starttime <- time_now env;;
  taskid <- new_taskid env;;
  process <- Popen env cmd PIPE PIPE;;
  register taskid process;;;
  send env clientsock (msg_taskstart taskid);;;
  finished <- process_communicate env process;;
  let '(output, error, returncode) := finished in
  let exitcode := pretty returncode in
  _ <- lift (bytes_decode output);;
  _ <- lift (bytes_decode error);;
  stoptime <- time_now env;;
  let elapsedtime := get_time_str env starttime stoptime in
  send env clientsock (msg_taskfinish taskid exitcode elapsedtime).

(** The [except ValueError] and [except socket.error] clauses that close
    [run_command]. *)
Definition run_handlers (clientsock : nat) (e : exn) : option (M ()) :=
  match e with
  | ValueError => Some (send env clientsock msg_value_error)
  | OSError => Some (ret ())
  | _ => None
  end.

Definition run_command (threadnum : nat) (command_dict : pyval)
    (clientsock : nat) : M () :=
  index <- resolve command_dict "index" (config_index env);;
  batchsize <- resolve command_dict "batchsize" (cliargs_batchsize env);;
  adaptivebatch <- resolve command_dict "adaptivebatch" (cliargs_adaptivebatch env);;
  try_except
    (selected <- select_command threadnum command_dict clientsock index batchsize;;
     match selected with
     | None => ret ()
     | Some cmd => run_task clientsock adaptivebatch cmd
     end)
    (run_handlers clientsock).

Definition BUFF : nat := 1024.

(** [b'...' + e] with [e] an exception object: [bytes] cannot be
    concatenated with it, the [+] raises [TypeError]. *)
Definition bytes_add_exn (b : string) (e : exn) : M string := raise TypeError.

(** One turn of the [while True] loop of [socket_thread_handler] on the
    connection [c] taken from the queue.  [Ok] is the loop going on to the
    next [q.get()]; [Raise e] is [e] leaving the loop, which ends the
    thread. *)
Definition handle_connection (threadnum : nat) (c : client) : M () :=
  let sock := clientsock c in
  try_except
    (data <- recv env sock BUFF;;
     data <- lift (bytes_decode data);;
     if String.eqb data "" then
       close sock;;;
       task_done
     else
       (if String.eqb data "ping" then
          send env sock "pong"
        else
          let data := last_item (str_split data CRLF) in
          command_dict <- loads env data;;
          run_command threadnum command_dict sock);;;
       close sock;;;
       task_done)
    (λ e, match e with
          | ValueError | TypeError =>
              Some (message <- bytes_add_exn msg_error_head e;;
                    send env sock (message +:+ "}" +:+ LF);;;
                    close sock;;;
                    task_done)
          | OSError =>
              Some (close sock;;;
                    task_done)
          | KeyError => None
          end).

(** How a worker thread stands once the connections it was given are used
    up: blocked in [q.get()], or ended by an exception. *)
Inductive thread_state := Waiting | Died (e : exn).

(** [socket_thread_handler] fed with the connections that [q.get()] hands
    to this thread, in order. *)
Fixpoint socket_thread_handler (threadnum : nat) (gets : list client)
    (w : World) : thread_state * World :=
  match gets with
  | [] => (Waiting, w)
  | c :: gets' =>
      match handle_connection threadnum c w with
      | (Ok _, w') => socket_thread_handler threadnum gets' w'
      | (Raise e, w') => (Died e, w')
      end
  end.

End Program.

(** ** Observing a run *)

(** The events a computation adds to the history of [w]. *)
Definition new_events {X} (m : World → X * World) (w : World) : list event :=
  drop (length (trace w)) (trace (m w).2).

(** Argument vectors of all [Popen] calls, and of those that started a
    process. *)
Definition popen_calls (evs : list event) : list (list pyval) :=
  omap (λ ev, match ev with EvPopen cmd _ => Some cmd | _ => None end) evs.

Definition spawned (evs : list event) : list (list pyval) :=
  omap (λ ev, match ev with EvPopen cmd (Ok _) => Some cmd | _ => None end) evs.

(** Task identifiers generated. *)
Definition taskids (evs : list event) : list string :=
  omap (λ ev, match ev with EvUuid u => Some u | _ => None end) evs.

(** Registry writes. *)
Definition registered (evs : list event) : list (string * process) :=
  omap (λ ev, match ev with EvRegister u p => Some (u, p) | _ => None end) evs.

(** Frames handed to [send] on a socket, in order. *)
Definition sent (sock : nat) (evs : list event) : list string :=
  omap (λ ev, match ev with
              | EvSend s m _ => if Nat.eqb s sock then Some m else None
              | _ => None
              end) evs.

(** Number of [close()] calls on a socket. *)
Definition closes (sock : nat) (evs : list event) : nat :=
  length (omap (λ ev, match ev with
                      | EvClose s => if Nat.eqb s sock then Some () else None
                      | _ => None
                      end) evs).

(** Connections accepted so far. *)
Definition accepted (evs : list event) : list client :=
  omap (λ ev, match ev with EvAccept c => Some c | _ => None end) evs.

(** The value a command field resolves to: the command's own, else the
    default, passed through [str()]. *)
Definition resolved (env : Env) (d : gmap string pyval) (key : string)
    (dflt : pyval) : string :=
  py_str env (default dflt (d !! key)).

(** The registry after the writes recorded in a run. *)
Definition register_event (reg : gmap string process) (ev : event)
  : gmap string process :=
  match ev with
  | EvRegister taskid p => <[taskid := p]> reg
  | _ => reg
  end.

(** [m] only appends events allowed by [P], leaves [clientlist] alone and
    changes [socket_tasks] only through the recorded registry writes. *)
Definition emits {A} (P : event → bool) (m : M A) : Prop :=
  ∀ w, ∃ evs,
    trace (m w).2 = trace w ++ evs ∧
    forallb P evs = true ∧
    clientlist (m w).2 = clientlist w ∧
    socket_tasks (m w).2 = foldl register_event (socket_tasks w) evs.

(** Events [run_command] may produce on behalf of socket [sock]. *)
Definition dispatcher_event (sock : nat) (ev : event) : bool :=
  match ev with
  | EvTime _ | EvUuid _ | EvPopen _ _ | EvRegister _ _ | EvCommunicate _ _ _ _ => true
  | EvSend s _ _ => Nat.eqb s sock
  | _ => false
  end.

(** Events one turn of the handler loop may produce. *)
Definition handler_event (sock : nat) (ev : event) : bool :=
  match ev with
  | EvRecv s _ _ | EvClose s => Nat.eqb s sock
  | EvTaskDone => true
  | _ => dispatcher_event sock ev
  end.


(** ** Shapes of commands *)

(** A command of one of the three kinds that start a process, with the
    fields that kind requires. *)
Definition spawn_variant (d : gmap string pyval) : Prop :=
  (d !! "action" = Some (PyStr "crawl") ∧ is_Some (d !! "path")) ∨
  d !! "action" = Some (PyStr "finddupes") ∨
  (d !! "action" = Some (PyStr "reindex") ∧ is_Some (d !! "path")).

(** A recognized action without the field it requires. *)
Definition missing_required_field (d : gmap string pyval) : Prop :=
  (d !! "action" = Some (PyStr "crawl") ∧ d !! "path" = None) ∨
  (d !! "action" = Some (PyStr "reindex") ∧ d !! "path" = None) ∨
  (d !! "action" = Some (PyStr "kill") ∧ d !! "taskid" = None).

(** [action] is none of the four recognized strings. *)
Definition unrecognized (action : pyval) : Prop :=
  action ≠ PyStr "crawl" ∧ action ≠ PyStr "finddupes" ∧
  action ≠ PyStr "reindex" ∧ action ≠ PyStr "kill".

(** ** The runs of a started task *)

(** What the [except] clauses of [run_command] add after exception [e], and
    how [run_command] then ends. *)
Inductive handled (sock : nat) : exn → list event → result () → Prop :=
| handled_value_error r :
    handled sock ValueError [EvSend sock msg_value_error r] r
| handled_socket_error :
    handled sock OSError [] (Ok ())
| handled_not e :
    e ≠ ValueError → e ≠ OSError → handled sock e [] (Raise e).

(** The four ways the code of source lines 236-276 can go for the argument
    vector [cmd]: [Popen] raises; the taskstart frame cannot be sent; the
    child's output is not UTF-8; the run reaches the taskfinish frame. *)
Inductive task_run (env : Env) (sock : nat) (cmd : list pyval)
  : list event → result () → Prop :=
| run_popen_failed t0 taskid e h res :
    handled sock e h res →
    task_run env sock cmd
      ([EvTime t0; EvUuid taskid; EvPopen cmd (Raise e)] ++ h) res
| run_start_failed t0 taskid p :
    task_run env sock cmd
      [EvTime t0; EvUuid taskid; EvPopen cmd (Ok p); EvRegister taskid p;
       EvSend sock (msg_taskstart taskid) (Raise OSError)] (Ok ())
| run_output_undecodable t0 taskid p output error returncode r :
    utf8_valid output && utf8_valid error = false →
    task_run env sock cmd
      [EvTime t0; EvUuid taskid; EvPopen cmd (Ok p); EvRegister taskid p;
       EvSend sock (msg_taskstart taskid) (Ok ());
       EvCommunicate p output error returncode;
       EvSend sock msg_value_error r] r
| run_finished t0 taskid p output error returncode t1 r :
    utf8_valid output && utf8_valid error = true →
    task_run env sock cmd
      [EvTime t0; EvUuid taskid; EvPopen cmd (Ok p); EvRegister taskid p;
       EvSend sock (msg_taskstart taskid) (Ok ());
       EvCommunicate p output error returncode; EvTime t1;
       EvSend sock
         (msg_taskfinish taskid (pretty returncode) (get_time_str env t0 t1)) r]
      (Ok ()).

(** One of the two flags [reindex] chooses between. *)
Definition is_reindex_flag (v : pyval) : bool :=
  py_eq_str v "-r" || py_eq_str v "-R".

Definition count_reindex_flags (cmd : list pyval) : nat :=
  length (List.filter is_reindex_flag cmd).

(** Queue items not yet matched by a [task_done()], what [q.join()] waits
    for. *)
Definition unfinished_tasks (evs : list event) : Z :=
  Z.of_nat (length (omap (λ ev, match ev with EvPut _ => Some () | _ => None end) evs))
  - Z.of_nat (length (omap (λ ev, match ev with EvTaskDone => Some () | _ => None end) evs)).

(** ** The server: acceptor and worker pool *)

Definition max_connections : nat := 5.

(** Where the main thread of [start_socket_server] stands. *)
Inductive main_thread :=
| Accepting                 (* in serversock.accept() *)
| Putting (c : client)      (* client appended to clientlist, in q.put(client) *)
| Joining                   (* KeyboardInterrupt caught, in q.join() *)
| Exited (status : Z).      (* sys.exit(status) *)

(** [queue] is the bounded [Queue]; [busy] maps the number of a worker thread
    that has taken a connection with [q.get()] and is still in its turn to
    that connection; [ended] holds the numbers of the worker threads that an
    exception has terminated. *)
Record Server := {
  world : World;
  queue : list client;
  main : main_thread;
  busy : gmap nat client;
  ended : gset nat;
}.

Definition initial : Server :=
  {| world := {| socket_tasks := ∅; clientlist := []; trace := [] |};
     queue := [];
     main := Accepting;
     busy := ∅;
     ended := ∅ |}.

(** [clientsock, addr = serversock.accept()] followed by
    [client = [clientsock, addr]; clientlist.append(client)]. *)
Definition accept_client (c : client) (w : World) : World :=
  {| socket_tasks := socket_tasks w;
     clientlist := clientlist w ++ [c];
     trace := trace w ++ [EvAccept c] |}.

Definition main_running (m : main_thread) : Prop :=
  match m with Exited _ => False | _ => True end.

(** The threads interleave.  A worker's turn of its loop takes two steps:
    [q.get()], which takes the connection off the queue, and the rest of the
    turn, whose calls are appended to the history together; between the two
    any other thread may move.  [sys.exit] in the main thread ends the
    process, daemon workers included. *)
Inductive step (env : Env) : Server → Server → Prop :=
| step_accept s c :
    main s = Accepting →
    step env s {| world := accept_client c (world s); queue := queue s;
                  main := Putting c; busy := busy s; ended := ended s |}
| step_put s c :
    main s = Putting c →
    length (queue s) < max_connections →
    step env s {| world := log_event (EvPut c) (world s); queue := queue s ++ [c];
                  main := Accepting; busy := busy s; ended := ended s |}
| step_socket_error s :
    main s = Accepting →
    step env s {| world := world s; queue := queue s;
                  main := Exited 1; busy := busy s; ended := ended s |}
| step_interrupt s :
    main s = Accepting ∨ (∃ c, main s = Putting c) →
    step env s {| world := world s; queue := queue s;
                  main := Joining; busy := busy s; ended := ended s |}
| step_joined s :
    main s = Joining →
    unfinished_tasks (trace (world s)) = 0%Z →
    step env s {| world := world s; queue := queue s;
                  main := Exited 0; busy := busy s; ended := ended s |}
| step_get s threadnum c rest :
    main_running (main s) →
    threadnum < max_connections →
    threadnum ∉ ended s →
    busy s !! threadnum = None →
    queue s = c :: rest →
    step env s {| world := world s; queue := rest; main := main s;
                  busy := <[threadnum := c]> (busy s); ended := ended s |}
| step_turn s threadnum c :
    main_running (main s) →
    busy s !! threadnum = Some c →
    step env s {| world := (handle_connection env threadnum c (world s)).2;
                  queue := queue s;
                  main := main s;
                  busy := delete threadnum (busy s);
                  ended := match (handle_connection env threadnum c (world s)).1 with
                           | Ok _ => ended s
                           | Raise _ => {[threadnum]} ∪ ended s
                           end |}.

Definition reachable (env : Env) (s : Server) : Prop := rtc (step env) initial s.

(** ** JSON text up to insignificant whitespace *)

(** Drops the whitespace JSON allows between tokens; string literals are kept
    as they are.  [in_str] is set inside a literal, [esc] after a backslash
    in it. *)
Fixpoint json_compact_go (in_str esc : bool) (s : string) : string :=
  match s with
  | EmptyString => EmptyString
  | String c s' =>
      if in_str then
        String c (json_compact_go
                    (if esc then true else negb (Ascii.eqb c "034"))
                    (if esc then false else Ascii.eqb c "\")
                    s')
      else if Ascii.eqb c " " || Ascii.eqb c "009" || Ascii.eqb c "010" || Ascii.eqb c "013"
      then json_compact_go false false s'
      else String c (json_compact_go (Ascii.eqb c "034") false s')
  end.

Definition json_compact : string → string := json_compact_go false false.

(** ** The claim about [adaptivebatch], as the specification words it *)

Definition ascii_lower (c : ascii) : ascii :=
  if byte_in 65 90 c then ascii_of_N (N_of_ascii c + 32) else c.

Fixpoint str_lower (s : string) : string :=
  match s with
  | EmptyString => EmptyString
  | String c s' => String (ascii_lower c) (str_lower s')
  end.

(** "case-insensitive comparison to the literal true" *)
Definition spec_adaptive_on (adaptivebatch : string) : bool :=
  String.eqb (str_lower adaptivebatch) "true".

(** ** Sample data *)

(** A cooperative environment: the peer sends [request], [json.loads] answers
    [decoded], every other call succeeds. *)
Definition sample_env (request : option string) (decoded : option pyval) : Env :=
  {| config_index := PyStr "diskover-index";
     config_python_path := PyStr "python";
     config_diskover_path := PyStr "/opt/diskover/diskover.py";
     cliargs_batchsize := PyInt 50;
     cliargs_adaptivebatch := PyBool false;
     json_loads := λ _, decoded;
     py_repr := λ _, "[...]";
     get_time_str := λ _ _, "0:00:03";
     sock_recv := λ _ _ _, request;
     sock_send := λ _ _ _, true;
     time_time := λ h, Z.of_nat (length h);
     uuid4 := λ _, "3f2b8c1e-7a55-4d0c-9c7e-5b1f0a2d4e61";
     popen := λ _ _ _ _, Ok 7;
     communicate := λ _ _, ("", "", 0%Z) |}.

Definition quiet_env : Env := sample_env (Some "") None.

Definition empty_world : World :=
  {| socket_tasks := ∅; clientlist := []; trace := [] |}.

Definition mkdict (l : list (string * pyval)) : gmap string pyval := list_to_map l.

Definition peer : client := Client 3 "10.0.0.7".

(** The server after it has accepted [peer] and queued it. *)
Definition one_queued : Server :=
  {| world := log_event (EvPut peer) (accept_client peer empty_world);
     queue := [peer];
     main := Accepting;
     busy := ∅;
     ended := ∅ |}.

(** Commands and requests used in the examples. *)

Definition crawl_data : gmap string pyval :=
  mkdict [("action", PyStr "crawl"); ("path", PyStr "/data")].

Definition finddupes_upper : gmap string pyval :=
  mkdict [("action", PyStr "finddupes"); ("adaptivebatch", PyStr "TRUE")].

Definition finddupes_true : gmap string pyval :=
  mkdict [("action", PyStr "finddupes"); ("adaptivebatch", PyBool true)].

Definition reindex_data : gmap string pyval :=
  mkdict [("action", PyStr "reindex"); ("path", PyStr "/data");
          ("recursive", PyStr "true")].


Definition crawl_without_path : gmap string pyval :=
  mkdict [("action", PyStr "crawl")].

Definition no_action : gmap string pyval := mkdict [("path", PyStr "/data")].

Definition bad_request_env : Env := sample_env (Some "{bad") None.

(** ** More observations *)

(** Number of [q.task_done()] calls. *)
Definition task_dones (evs : list event) : nat :=
  length (omap (λ ev, match ev with EvTaskDone => Some () | _ => None end) evs).

(** Connections put on the queue, in order. *)
Definition puts (evs : list event) : list client :=
  omap (λ ev, match ev with EvPut c => Some c | _ => None end) evs.

(** Sockets [recv] was called on. *)
Definition recvs (evs : list event) : list nat :=
  omap (λ ev, match ev with EvRecv s _ _ => Some s | _ => None end) evs.

(** [sep in s] *)
Fixpoint str_contains (sep s : string) : bool :=
  is_prefix sep s ||
  match s with
  | EmptyString => false
  | String _ s' => str_contains sep s'
  end.

(** How many of the connections use socket [sock]. *)
Definition uses_of (sock : nat) (gets : list client) : nat :=
  length (List.filter (λ c, Nat.eqb (clientsock c) sock) gets).

(** ** More sample data *)

(** [env] with other answers from [Popen], [send] or [communicate]. *)
Definition with_popen
    (f : list event → list pyval → stdio → stdio → result process) (env : Env)
  : Env :=
  {| config_index := config_index env;
     config_python_path := config_python_path env;
     config_diskover_path := config_diskover_path env;
     cliargs_batchsize := cliargs_batchsize env;
     cliargs_adaptivebatch := cliargs_adaptivebatch env;
     json_loads := json_loads env;
     py_repr := py_repr env;
     get_time_str := get_time_str env;
     sock_recv := sock_recv env;
     sock_send := sock_send env;
     time_time := time_time env;
     uuid4 := uuid4 env;
     popen := f;
     communicate := communicate env |}.

Definition with_send (f : list event → nat → string → bool) (env : Env) : Env :=
  {| config_index := config_index env;
     config_python_path := config_python_path env;
     config_diskover_path := config_diskover_path env;
     cliargs_batchsize := cliargs_batchsize env;
     cliargs_adaptivebatch := cliargs_adaptivebatch env;
     json_loads := json_loads env;
     py_repr := py_repr env;
     get_time_str := get_time_str env;
     sock_recv := sock_recv env;
     sock_send := f;
     time_time := time_time env;
     uuid4 := uuid4 env;
     popen := popen env;
     communicate := communicate env |}.

Definition with_communicate (f : list event → process → string * string * Z)
    (env : Env) : Env :=
  {| config_index := config_index env;
     config_python_path := config_python_path env;
     config_diskover_path := config_diskover_path env;
     cliargs_batchsize := cliargs_batchsize env;
     cliargs_adaptivebatch := cliargs_adaptivebatch env;
     json_loads := json_loads env;
     py_repr := py_repr env;
     get_time_str := get_time_str env;
     sock_recv := sock_recv env;
     sock_send := sock_send env;
     time_time := time_time env;
     uuid4 := uuid4 env;
     popen := popen env;
     communicate := f |}.

(** The interpreter cannot be started. *)
Definition no_python_env : Env := with_popen (λ _ _ _ _, Raise OSError) quiet_env.

(** The client has gone: every [send] fails. *)
Definition gone_client_env : Env := with_send (λ _ _ _, false) quiet_env.

(** The child writes a byte that is not UTF-8 and exits with status 1. *)
Definition binary_output_env : Env :=
  with_communicate (λ _ _, (String "255" "", "", 1%Z)) quiet_env.

Definition sample_taskid : string := "3f2b8c1e-7a55-4d0c-9c7e-5b1f0a2d4e61".

Definition finddupes_data : gmap string pyval :=
  mkdict [("action", PyStr "finddupes"); ("batchsize", PyInt 100)].

Definition delete_data : gmap string pyval :=
  mkdict [("action", PyStr "delete")].

(** Worker 0 has taken [peer] off the queue. *)
Definition one_taken : Server :=
  {| world := world one_queued;
     queue := [];
     main := Accepting;
     busy := {[0 := peer]};
     ended := ∅ |}.

(** The server after worker 0 has served a crawl sent by [peer]. *)
Definition crawl_request_env : Env :=
  sample_env (Some "{...}") (Some (PyDict crawl_data)).

Definition crawl_served : Server :=
  {| world := (handle_connection crawl_request_env 0 peer (world one_queued)).2;
     queue := [];
     main := Accepting;
     busy := ∅;
     ended := ∅ |}.

(** The server after worker 0 has answered a ping of [peer]. *)
Definition ping_env : Env := sample_env (Some "ping") None.

Definition ping_served : Server :=
  {| world := (handle_connection ping_env 0 peer (world one_queued)).2;
     queue := [];
     main := Accepting;
     busy := ∅;
     ended := ∅ |}.

(** Then Ctrl-C, and [q.join()] has returned. *)
Definition shut_down : Server :=
  {| world := world ping_served;
     queue := [];
     main := Exited 0;
     busy := ∅;
     ended := ∅ |}.

(** The server after worker 0 has taken a crawl without a path sent by
    [peer]: the [KeyError] has ended the thread. *)
Definition incomplete_request_env : Env :=
  sample_env (Some "{...}") (Some (PyDict crawl_without_path)).

Definition worker_lost : Server :=
  {| world := (handle_connection incomplete_request_env 0 peer (world one_queued)).2;
     queue := [];
     main := Accepting;
     busy := ∅;
     ended := {[0]} |}.

(** ** The answers of the environment *)

(** The answer recorded with the call [ev] is the one the environment gives
    when the call is made after the history [h]; [Popen] is asked with
    [stdout=PIPE] and [stderr=PIPE]. *)
Definition answered (env : Env) (h : list event) (ev : event) : Prop :=
  match ev with
  | EvRecv sock bufsize r =>
      r = match sock_recv env h sock bufsize with
          | Some data => Ok data
          | None => Raise OSError
          end
  | EvSend sock message r =>
      r = if sock_send env h sock message then Ok () else Raise OSError
  | EvTime t => t = time_time env h
  | EvUuid taskid => taskid = uuid4 env h
  | EvPopen cmd r => r = popen env h cmd PIPE PIPE
  | EvCommunicate p output error returncode =>
      (output, error, returncode) = communicate env h p
  | _ => True
  end.

(** Every call of [evs], made one after the other from the history [h] on,
    has the environment's answer. *)
Fixpoint answered_all (env : Env) (h : list event) (evs : list event) : Prop :=
  match evs with
  | [] => True
  | ev :: evs' => answered env h ev ∧ answered_all env (h ++ [ev]) evs'
  end.

(** [m] only appends calls, each with the environment's answer. *)
Definition answers {A} (env : Env) (m : M A) : Prop :=
  ∀ w, ∃ evs, trace (m w).2 = trace w ++ evs ∧ answered_all env (trace w) evs.

(** ** Sample data for the life of a task *)

Definition is_text (v : pyval) : bool :=
  match v with PyStr _ => true | _ => false end.

(** [Popen] as [subprocess] has it: an element of the argument vector that is
    not a string raises [TypeError]. *)
Definition strict_argv_env : Env :=
  with_popen (λ _ cmd _ _, if forallb is_text cmd then Ok 7 else Raise TypeError)
    quiet_env.

Definition crawl_numeric_path : gmap string pyval :=
  mkdict [("action", PyStr "crawl"); ("path", PyInt 5)].

(** The child writes a line, exits with status 2, and the elapsed time is
    shown in seconds. *)
Definition clocked_env : Env :=
  {| config_index := PyStr "diskover-index";
     config_python_path := PyStr "python";
     config_diskover_path := PyStr "/opt/diskover/diskover.py";
     cliargs_batchsize := PyInt 50;
     cliargs_adaptivebatch := PyBool false;
     json_loads := λ _, None;
     py_repr := λ _, "[...]";
     get_time_str := λ starttime stoptime, pretty (stoptime - starttime)%Z +:+ "s";
     sock_recv := λ _ _ _, Some "";
     sock_send := λ _ _ _, true;
     time_time := λ h, (100 + Z.of_nat (length h))%Z;
     uuid4 := λ _, "3f2b8c1e-7a55-4d0c-9c7e-5b1f0a2d4e61";
     popen := λ _ _ _ _, Ok 7;
     communicate := λ _ _, ("crawled", "", 2%Z) |}.

(** The five frames [run_command] has in its source. *)
Definition reply_frame (message : string) : Prop :=
  message = msg_taskkilled ∨
  message = msg_unknown_action ∨
  message = msg_value_error ∨
  (∃ taskid, message = msg_taskstart taskid) ∨
  (∃ taskid exitcode elapsedtime,
     message = msg_taskfinish taskid exitcode elapsedtime).

(** * Properties *)

(** ** Stepping through a run *)

Ltac run_all :=
  unfold try_except, run_handlers, run_task, bind, time_now, new_taskid, Popen,
    register, send, recv, close, task_done, process_communicate, lift,
    bytes_decode, log_event, ret, raise; simpl.

Ltac ask_popen p e :=
  match goal with
  | |- context [popen ?a ?h ?c ?o1 ?o2] =>
      destruct (popen a h c o1 o2) as [p|e] eqn:?; simpl
  end.

Ltac ask_send :=
  match goal with
  | |- context [sock_send ?a ?h ?s ?m] =>
      destruct (sock_send a h s m) eqn:?; simpl
  end.

Ltac ask_communicate out err rc :=
  match goal with
  | |- context [communicate ?a ?h ?p] =>
      destruct (communicate a h p) as [[out err] rc] eqn:?; simpl
  end.

Ltac trace_norm :=
  unfold log_event; simpl; rewrite <- ?app_assoc; simpl; rewrite ?drop_app_length.

Lemma new_events_app {X} (m : World → X * World) w evs :
  trace (m w).2 = trace w ++ evs → new_events m w = evs.
Proof. unfold new_events. intros ->. apply drop_app_length. Qed.

(** ** Resolution of the optional fields *)

Lemma resolve_dict env d key dflt w :
  resolve env (PyDict d) key dflt w = (Ok (resolved env d key dflt), w).
Proof.
  unfold resolve, resolved, try_except, bind, lift, ret, py_getitem.
  destruct (d !! key); reflexivity.
Qed.

(** A command that is not a [dict] fails at the first subscript. *)
Lemma resolve_not_dict env v key dflt w :
  (∀ d, v ≠ PyDict d) →
  resolve env v key dflt w = (Raise TypeError, w).
Proof.
  intros Hv. unfold resolve, try_except, bind, lift, py_getitem.
  destruct v; try reflexivity. by destruct (Hv d).
Qed.

Lemma run_command_dict env threadnum d sock w :
  run_command env threadnum (PyDict d) sock w =
  try_except
    (selected <- select_command env threadnum (PyDict d) sock
                   (resolved env d "index" (config_index env))
                   (resolved env d "batchsize" (cliargs_batchsize env));;
     match selected with
     | None => ret ()
     | Some cmd =>
         run_task env sock
           (resolved env d "adaptivebatch" (cliargs_adaptivebatch env)) cmd
     end)
    (run_handlers env sock) w.
Proof.
  unfold run_command.
  do 3 (unfold bind at 1; rewrite resolve_dict).
  reflexivity.
Qed.

Lemma run_command_spawn env threadnum d sock w cmd :
  select_command env threadnum (PyDict d) sock
    (resolved env d "index" (config_index env))
    (resolved env d "batchsize" (cliargs_batchsize env)) w = (Ok (Some cmd), w) →
  run_command env threadnum (PyDict d) sock w =
  try_except
    (run_task env sock
       (resolved env d "adaptivebatch" (cliargs_adaptivebatch env)) cmd)
    (run_handlers env sock) w.
Proof.
  intros Hsel. rewrite run_command_dict.
  unfold try_except, bind. rewrite Hsel. reflexivity.
Qed.

(** ** The [if]/[elif] chain *)

Lemma py_eq_str_true v lit : py_eq_str v lit = true ↔ v = PyStr lit.
Proof.
  destruct v; simpl; try (split; [discriminate | congruence]).
  rewrite String.eqb_eq. split; congruence.
Qed.

Lemma py_eq_str_false v lit : py_eq_str v lit = false ↔ v ≠ PyStr lit.
Proof.
  rewrite <- py_eq_str_true. destruct (py_eq_str v lit); split; congruence.
Qed.

Lemma select_crawl env threadnum d sock index batchsize path w :
  d !! "action" = Some (PyStr "crawl") →
  d !! "path" = Some path →
  select_command env threadnum (PyDict d) sock index batchsize w =
  (Ok (Some [config_python_path env; PyStr "-u"; config_diskover_path env;
             PyStr "-b"; PyStr batchsize; PyStr "-i"; PyStr index;
             PyStr "-d"; path; PyStr "-q"]), w).
Proof.
  intros Ha Hp. unfold select_command, bind, lift, ret, py_getitem.
  rewrite Ha. simpl. rewrite Hp. reflexivity.
Qed.

Lemma select_finddupes env threadnum d sock index batchsize w :
  d !! "action" = Some (PyStr "finddupes") →
  select_command env threadnum (PyDict d) sock index batchsize w =
  (Ok (Some [config_python_path env; PyStr "-u"; config_diskover_path env;
             PyStr "-b"; PyStr batchsize; PyStr "-i"; PyStr index;
             PyStr "--finddupes"; PyStr "-q"]), w).
Proof.
  intros Ha. unfold select_command, bind, lift, ret, py_getitem.
  rewrite Ha. reflexivity.
Qed.

(** The flag [reindex] puts after the path. *)
Lemma select_reindex env threadnum d sock index batchsize path w :
  d !! "action" = Some (PyStr "reindex") →
  d !! "path" = Some path →
  select_command env threadnum (PyDict d) sock index batchsize w =
  (Ok (Some [config_python_path env; PyStr "-u"; config_diskover_path env;
             PyStr "-b"; PyStr batchsize; PyStr "-i"; PyStr index;
             PyStr "-d"; path;
             PyStr (if py_eq_str (default (PyStr "false") (d !! "recursive")) "true"
                    then "-R" else "-r");
             PyStr "-q"]), w).
Proof.
  intros Ha Hp. unfold select_command, try_except, bind, lift, ret, py_getitem.
  rewrite Ha. simpl. rewrite Hp.
  destruct (d !! "recursive") as [r|]; simpl; [|reflexivity].
  destruct (py_eq_str r "true"); reflexivity.
Qed.

Lemma select_kill env threadnum d sock index batchsize taskid w :
  d !! "action" = Some (PyStr "kill") →
  d !! "taskid" = Some taskid →
  select_command env threadnum (PyDict d) sock index batchsize w =
  (_ <- send env sock msg_taskkilled;; ret None) w.
Proof.
  intros Ha Hp. unfold select_command, bind at 1, lift, py_getitem.
  rewrite Ha. simpl. unfold bind at 1. rewrite Hp. reflexivity.
Qed.

Lemma select_unknown env threadnum d sock index batchsize action w :
  d !! "action" = Some action →
  unrecognized action →
  select_command env threadnum (PyDict d) sock index batchsize w =
  (_ <- send env sock msg_unknown_action;; ret None) w.
Proof.
  intros Ha (H1 & H2 & H3 & H4).
  apply py_eq_str_false in H1, H2, H3, H4.
  unfold select_command, bind at 1, lift, py_getitem.
  by rewrite Ha, H1, H2, H3, H4.
Qed.

Lemma select_no_action env threadnum d sock index batchsize w :
  d !! "action" = None →
  select_command env threadnum (PyDict d) sock index batchsize w = (Raise KeyError, w).
Proof.
  intros Ha. unfold select_command, bind, lift, py_getitem. rewrite Ha. reflexivity.
Qed.

Lemma spawn_variant_selects env threadnum d sock index batchsize :
  spawn_variant d →
  ∃ cmd, ∀ w, select_command env threadnum (PyDict d) sock index batchsize w
              = (Ok (Some cmd), w).
Proof.
  intros [[Ha [p Hp]]|[Ha|[Ha [p Hp]]]]; eexists; intros w.
  - by apply select_crawl.
  - by apply select_finddupes.
  - by apply select_reindex.
Qed.

(** ** What a computation may touch *)

Section Emits.
Context (P : event → bool).

Lemma emits_pure {A} (r : result A) : emits P (λ w, (r, w)).
Proof.
  intros w. exists []. simpl. by rewrite app_nil_r.
Qed.

Lemma emits_ret {A} (a : A) : emits P (ret a).
Proof. apply emits_pure. Qed.

Lemma emits_raise {A} e : emits P (@raise A e).
Proof. apply emits_pure. Qed.

Lemma emits_lift {A} (r : result A) : emits P (lift r).
Proof. apply emits_pure. Qed.

Lemma emits_log {A} (f : World → result A) (g : World → event) :
  (∀ w, P (g w) = true) →
  (∀ w, register_event (socket_tasks w) (g w) = socket_tasks w) →
  emits P (λ w, (f w, log_event (g w) w)).
Proof.
  intros HP Hreg w. exists [g w]. simpl. by rewrite HP, Hreg.
Qed.

Lemma emits_bind {A B} (m : M A) (k : A → M B) :
  emits P m → (∀ a, emits P (k a)) → emits P (bind m k).
Proof.
  intros Hm Hk w. unfold bind.
  destruct (Hm w) as (evs & Ht & HP & Hc & Hs).
  destruct (m w) as [[a|e] w1]; simpl in *.
  - destruct (Hk a w1) as (evs' & Ht' & HP' & Hc' & Hs').
    exists (evs ++ evs'). rewrite Ht', Ht, Hc', Hc, Hs', Hs.
    by rewrite app_assoc, forallb_app, HP, HP', foldl_app.
  - by exists evs.
Qed.

Lemma emits_try {A} (m : M A) (handlers : exn → option (M A)) :
  emits P m → (∀ e h, handlers e = Some h → emits P h) →
  emits P (try_except m handlers).
Proof.
  intros Hm Hh w. unfold try_except.
  destruct (Hm w) as (evs & Ht & HP & Hc & Hs).
  destruct (m w) as [[a|e] w1]; simpl in *.
  - by exists evs.
  - destruct (handlers e) as [h|] eqn:He; [|by exists evs].
    destruct (Hh e h He w1) as (evs' & Ht' & HP' & Hc' & Hs').
    exists (evs ++ evs'). rewrite Ht', Ht, Hc', Hc, Hs', Hs.
    by rewrite app_assoc, forallb_app, HP, HP', foldl_app.
Qed.

Lemma emits_register taskid p :
  P (EvRegister taskid p) = true → emits P (register taskid p).
Proof.
  intros HP w. exists [EvRegister taskid p]. simpl. by rewrite HP.
Qed.

End Emits.

Lemma emits_weaken {A} (P Q : event → bool) (m : M A) :
  (∀ ev, P ev = true → Q ev = true) → emits P m → emits Q m.
Proof.
  intros HPQ Hm w. destruct (Hm w) as (evs & Ht & HP & Hc & Hs).
  exists evs. repeat split; try done.
  rewrite forallb_forall in *. auto.
Qed.

Lemma emits_new_events {A} P (m : M A) w :
  emits P m →
  trace (m w).2 = trace w ++ new_events m w ∧
  forallb P (new_events m w) = true ∧
  clientlist (m w).2 = clientlist w ∧
  socket_tasks (m w).2 = foldl register_event (socket_tasks w) (new_events m w).
Proof.
  intros Hm. destruct (Hm w) as (evs & Ht & HP & Hc & Hs).
  by rewrite (new_events_app m w evs Ht).
Qed.

Lemma dispatcher_event_handler sock ev :
  dispatcher_event sock ev = true → handler_event sock ev = true.
Proof. by destruct ev. Qed.

Lemma resolve_emits P env v key dflt : emits P (resolve env v key dflt).
Proof.
  apply emits_try.
  - apply emits_bind; [apply emits_lift | intros; apply emits_ret].
  - intros [] h [= <-]. apply emits_ret.
Qed.

Lemma send_emits P env sock message :
  (∀ r, P (EvSend sock message r) = true) → emits P (send env sock message).
Proof. intros HP. by apply (emits_log P (λ w, _) (λ w, _)). Qed.

Lemma select_command_emits env threadnum v sock index batchsize :
  emits (dispatcher_event sock) (select_command env threadnum v sock index batchsize).
Proof.
  assert (Hsend : ∀ m, emits (dispatcher_event sock) (send env sock m)).
  { intros m. apply send_emits. intros r. simpl. apply Nat.eqb_refl. }
  unfold select_command.
  apply emits_bind; [apply emits_lift|]. intros action.
  repeat case_match;
    repeat first
      [ apply emits_ret | apply emits_lift | apply Hsend
      | apply emits_bind; [|intros ?]
      | apply emits_try; [|intros [] ? [= <-]]
      | case_match ].
Qed.

Lemma run_task_emits env sock adaptivebatch cmd :
  emits (dispatcher_event sock) (run_task env sock adaptivebatch cmd).
Proof.
  assert (Hsend : ∀ m, emits (dispatcher_event sock) (send env sock m)).
  { intros m. apply send_emits. intros r. simpl. apply Nat.eqb_refl. }
  unfold run_task.
  apply emits_bind; [by apply (emits_log _ (λ w, _) (λ w, _))|]. intros t0.
  apply emits_bind; [by apply (emits_log _ (λ w, _) (λ w, _))|]. intros taskid.
  apply emits_bind; [by apply (emits_log _ (λ w, _) (λ w, _))|]. intros p.
  apply emits_bind; [by apply emits_register|]. intros _.
  apply emits_bind; [apply Hsend|]. intros _.
  apply emits_bind.
  { intros w. unfold process_communicate.
    destruct (communicate env (trace w) p) as [[out err] rc].
    exists [EvCommunicate p out err rc]. done. }
  intros [[out err] rc].
  apply emits_bind; [apply emits_lift|]. intros _.
  apply emits_bind; [apply emits_lift|]. intros _.
  apply emits_bind; [by apply (emits_log _ (λ w, _) (λ w, _))|]. intros t1.
  apply Hsend.
Qed.

Lemma run_command_emits env threadnum v sock :
  emits (dispatcher_event sock) (run_command env threadnum v sock).
Proof.
  unfold run_command.
  do 3 (apply emits_bind; [apply resolve_emits|]; intros ?).
  apply emits_try.
  - apply emits_bind; [apply select_command_emits|].
    intros [cmd|]; [apply run_task_emits | apply emits_ret].
  - intros [] h [= <-]; [|apply emits_ret].
    apply send_emits. intros r. simpl. apply Nat.eqb_refl.
Qed.

Lemma handle_connection_emits env threadnum c :
  emits (handler_event (clientsock c)) (handle_connection env threadnum c).
Proof.
  set (sock := clientsock c).
  assert (Hclose : emits (handler_event sock) (close sock)).
  { apply (emits_log _ (λ w, Ok ()) (λ w, EvClose sock)); [|done].
    intros _. simpl. apply Nat.eqb_refl. }
  assert (Hdone : emits (handler_event sock) task_done).
  { by apply (emits_log _ (λ w, Ok ()) (λ w, EvTaskDone)). }
  assert (Hsend : ∀ m, emits (handler_event sock) (send env sock m)).
  { intros m. apply send_emits. intros r. simpl. apply Nat.eqb_refl. }
  unfold handle_connection. fold sock.
  apply emits_try.
  - apply emits_bind.
    { apply (emits_log _ (λ w, _) (λ w, _)); [|done].
      intros w. simpl. apply Nat.eqb_refl. }
    intros data.
    apply emits_bind; [apply emits_lift|]. intros data'.
    destruct (String.eqb data' "").
    { apply emits_bind; [apply Hclose | intros; apply Hdone]. }
    apply emits_bind.
    { destruct (String.eqb data' "ping"); [apply Hsend|].
      apply emits_bind; [apply emits_lift|]. intros command_dict.
      eapply emits_weaken; [apply dispatcher_event_handler|].
      apply run_command_emits. }
    intros _. apply emits_bind; [apply Hclose | intros; apply Hdone].
  - intros [] h [= <-].
    + apply emits_bind; [apply emits_raise|]. intros message.
      apply emits_bind; [apply Hsend|]. intros _.
      apply emits_bind; [apply Hclose | intros; apply Hdone].
    + apply emits_bind; [apply emits_raise|]. intros message.
      apply emits_bind; [apply Hsend|]. intros _.
      apply emits_bind; [apply Hclose | intros; apply Hdone].
    + apply emits_bind; [apply Hclose | intros; apply Hdone].
Qed.

(** ** Calls and their answers *)

Lemma answered_all_app env h evs evs' :
  answered_all env h (evs ++ evs') ↔
  answered_all env h evs ∧ answered_all env (h ++ evs) evs'.
Proof.
  revert h. induction evs as [|ev evs IH]; intros h; simpl.
  - rewrite app_nil_r. tauto.
  - rewrite IH, <- app_assoc. simpl. tauto.
Qed.

Section Answers.
Context (env : Env).

Lemma answers_pure {A} (r : result A) : answers env (λ w, (r, w)).
Proof. intros w. exists []. simpl. by rewrite app_nil_r. Qed.

Lemma answers_log {A} (f : World → result A) (g : World → event) :
  (∀ w, answered env (trace w) (g w)) →
  answers env (λ w, (f w, log_event (g w) w)).
Proof. intros Hg w. exists [g w]. simpl. auto. Qed.

Lemma answers_bind {A B} (m : M A) (k : A → M B) :
  answers env m → (∀ a, answers env (k a)) → answers env (bind m k).
Proof.
  intros Hm Hk w. unfold bind.
  destruct (Hm w) as (evs & Ht & Ha).
  destruct (m w) as [[a|e] w1]; simpl in *; [|by exists evs].
  destruct (Hk a w1) as (evs' & Ht' & Ha').
  exists (evs ++ evs'). rewrite Ht', Ht, app_assoc. split; [done|].
  apply answered_all_app. split; [done|]. by rewrite <- Ht.
Qed.

Lemma answers_try {A} (m : M A) (handlers : exn → option (M A)) :
  answers env m → (∀ e h, handlers e = Some h → answers env h) →
  answers env (try_except m handlers).
Proof.
  intros Hm Hh w. unfold try_except.
  destruct (Hm w) as (evs & Ht & Ha).
  destruct (m w) as [[a|e] w1]; simpl in *; [by exists evs|].
  destruct (handlers e) as [h|] eqn:He; [|by exists evs].
  destruct (Hh e h He w1) as (evs' & Ht' & Ha').
  exists (evs ++ evs'). rewrite Ht', Ht, app_assoc. split; [done|].
  apply answered_all_app. split; [done|]. by rewrite <- Ht.
Qed.

Lemma resolve_answers v key dflt : answers env (resolve env v key dflt).
Proof.
  apply answers_try.
  - apply answers_bind; [apply answers_pure | intros; apply answers_pure].
  - intros [] h [= <-]. apply answers_pure.
Qed.

Lemma send_answers sock message : answers env (send env sock message).
Proof. by apply (answers_log (λ w, _) (λ w, _)). Qed.

Lemma select_command_answers threadnum v sock index batchsize :
  answers env (select_command env threadnum v sock index batchsize).
Proof.
  unfold select_command.
  apply answers_bind; [apply answers_pure|]. intros action.
  repeat case_match;
    repeat first
      [ apply answers_pure | apply send_answers
      | apply answers_bind; [|intros ?]
      | apply answers_try; [|intros [] ? [= <-]]
      | case_match ].
Qed.

Lemma run_task_answers sock adaptivebatch cmd :
  answers env (run_task env sock adaptivebatch cmd).
Proof.
  unfold run_task.
  apply answers_bind; [by apply (answers_log (λ w, _) (λ w, _))|]. intros t0.
  apply answers_bind; [by apply (answers_log (λ w, _) (λ w, _))|]. intros taskid.
  apply answers_bind; [by apply (answers_log (λ w, _) (λ w, _))|]. intros p.
  apply answers_bind.
  { intros w. by exists [EvRegister taskid p]. }
  intros _.
  apply answers_bind; [apply send_answers|]. intros _.
  apply answers_bind.
  { intros w. unfold process_communicate.
    destruct (communicate env (trace w) p) as [[out err] rc] eqn:Hc.
    exists [EvCommunicate p out err rc]. simpl. by rewrite Hc. }
  intros [[out err] rc].
  apply answers_bind; [apply answers_pure|]. intros _.
  apply answers_bind; [apply answers_pure|]. intros _.
  apply answers_bind; [by apply (answers_log (λ w, _) (λ w, _))|]. intros t1.
  apply send_answers.
Qed.

Lemma run_command_answers threadnum v sock :
  answers env (run_command env threadnum v sock).
Proof.
  unfold run_command.
  do 3 (apply answers_bind; [apply resolve_answers|]; intros ?).
  apply answers_try.
  - apply answers_bind; [apply select_command_answers|].
    intros [cmd|]; [apply run_task_answers | apply answers_pure].
  - intros [] h [= <-]; [apply send_answers | apply answers_pure].
Qed.

End Answers.

Lemma run_command_answered env threadnum v sock w :
  answered_all env (trace w) (new_events (run_command env threadnum v sock) w).
Proof.
  destruct (run_command_answers env threadnum v sock w) as (evs & Ht & Ha).
  by rewrite (new_events_app _ w evs Ht).
Qed.

(** ** Runs of a started task *)

Lemma spawn_runs env sock adaptivebatch cmd w :
  let run := try_except (run_task env sock adaptivebatch cmd) (run_handlers env sock) in
  task_run env sock
    (if adaptive_on adaptivebatch then cmd ++ [PyStr "-a"] else cmd)
    (new_events run w) (run w).1.
Proof.
  unfold new_events. run_all.
  set (cmd' := if adaptive_on adaptivebatch then cmd ++ [PyStr "-a"] else cmd).
  ask_popen p e.
  2: { destruct e; simpl; trace_norm; apply run_popen_failed; constructor; congruence. }
  ask_send.
  2: { trace_norm. apply run_start_failed. }
  ask_communicate out err rc.
  destruct (utf8_valid out) eqn:Ho; simpl.
  2: { trace_norm. apply run_output_undecodable. by rewrite Ho. }
  destruct (utf8_valid err) eqn:He; simpl.
  2: { trace_norm. apply run_output_undecodable. by rewrite Ho, He. }
  ask_send; trace_norm; apply run_finished; by rewrite Ho, He.
Qed.

Lemma spawn_command_runs env threadnum d sock w cmd :
  (∀ w, select_command env threadnum (PyDict d) sock
          (resolved env d "index" (config_index env))
          (resolved env d "batchsize" (cliargs_batchsize env)) w = (Ok (Some cmd), w)) →
  let run := run_command env threadnum (PyDict d) sock in
  task_run env sock
    (if adaptive_on (resolved env d "adaptivebatch" (cliargs_adaptivebatch env))
     then cmd ++ [PyStr "-a"] else cmd)
    (new_events run w) (run w).1.
Proof.
  intros Hsel run. subst run. unfold new_events.
  rewrite (run_command_spawn env threadnum d sock w cmd (Hsel w)).
  apply spawn_runs.
Qed.

(** Facts read off the four shapes. *)

Ltac task_run_cases H :=
  destruct H as [t0 taskid e h res Hh
                |t0 taskid p
                |t0 taskid p output error returncode r Hv
                |t0 taskid p output error returncode t1 r Hv].

Lemma task_run_popen_calls env sock cmd evs res :
  task_run env sock cmd evs res → popen_calls evs = [cmd].
Proof.
  intros H. task_run_cases H; try destruct Hh; reflexivity.
Qed.

Lemma task_run_taskids env sock cmd evs res :
  task_run env sock cmd evs res → ∃ taskid, taskids evs = [taskid].
Proof.
  intros H. task_run_cases H; try destruct Hh; eexists; reflexivity.
Qed.

(** ** Crawl *)

(** C1, as stated, fails: [{"action": "crawl", "path": 5}] has the action
    crawl and a path, yet no process is started and nothing is sent on the
    connection.  [Popen] is called once, with the number in its argument
    vector, and raises [TypeError], as [subprocess] does for an element that
    is not a string; the registry stays empty and the exception leaves
    [run_command]. *)
Lemma numeric_path_starts_nothing :
  let d := crawl_numeric_path in
  let run := run_command strict_argv_env 0 (PyDict d) 3 in
  let evs := new_events run empty_world in
  d !! "action" = Some (PyStr "crawl") ∧
  d !! "path" = Some (PyInt 5) ∧
  evs = [EvTime 0; EvUuid sample_taskid;
         EvPopen [PyStr "python"; PyStr "-u"; PyStr "/opt/diskover/diskover.py";
                  PyStr "-b"; PyStr "50"; PyStr "-i"; PyStr "diskover-index";
                  PyStr "-d"; PyInt 5; PyStr "-q"] (Raise TypeError)] ∧
  answered_all strict_argv_env [] evs ∧
  spawned evs = [] ∧
  sent 3 evs = [] ∧
  socket_tasks (run empty_world).2 = ∅ ∧
  (run empty_world).1 = Raise TypeError.
Proof.
  repeat (split; [reflexivity|]).
  split; [exact (run_command_answered strict_argv_env 0 (PyDict crawl_numeric_path)
                   3 empty_world)|].
  repeat split; reflexivity.
Qed.

(** C1, amended.  A command [{"action": "crawl", "path": p, ...}] makes
    [run_command] call [Popen] exactly once, with the argument vector of the
    crawl: it holds the path, the resolved batch size and the resolved
    index.  Exactly one task identifier is generated, and every call has the
    answer of the environment.  When [Popen] raises, no process is started,
    nothing is registered, and neither a taskstart nor a taskfinish frame is
    sent (a [ValueError] gets the value-error frame).  When [Popen] returns,
    exactly one process is started and registered under the identifier, and
    the first frame handed to [send] is the taskstart frame with that
    identifier; if that [send] fails it is the only frame; if it goes
    through, the child is waited for, and the second and last frame is the
    taskfinish frame with the same identifier and the child's exit code when
    the child's output and error decode as UTF-8, and the value-error frame
    when they do not. *)
Theorem crawl_calls_popen_once env threadnum d path sock w :
  d !! "action" = Some (PyStr "crawl") →
  d !! "path" = Some path →
  let evs := new_events (run_command env threadnum (PyDict d) sock) w in
  let batchsize := resolved env d "batchsize" (cliargs_batchsize env) in
  let index := resolved env d "index" (config_index env) in
  let adaptivebatch := resolved env d "adaptivebatch" (cliargs_adaptivebatch env) in
  let cmd :=
    [config_python_path env; PyStr "-u"; config_diskover_path env;
     PyStr "-b"; PyStr batchsize; PyStr "-i"; PyStr index; PyStr "-d"; path;
     PyStr "-q"]
    ++ (if String.eqb adaptivebatch "True" || String.eqb adaptivebatch "true"
        then [PyStr "-a"] else []) in
  let dq := String "034" EmptyString in
  let lf := String "010" EmptyString in
  let taskstart (taskid : string) :=
    "{" +:+ dq +:+ "msg" +:+ dq +:+ ": " +:+ dq +:+ "taskstart" +:+ dq +:+ ", "
    +:+ dq +:+ "taskid" +:+ dq +:+ ": " +:+ dq +:+ taskid +:+ dq +:+ "}" +:+ lf in
  let taskfinish (taskid exitcode elapsedtime : string) :=
    "{" +:+ dq +:+ "msg" +:+ dq +:+ ": " +:+ dq +:+ "taskfinish" +:+ dq +:+ ", "
    +:+ dq +:+ "taskid" +:+ dq +:+ ": " +:+ dq +:+ taskid +:+ dq +:+ ", "
    +:+ dq +:+ "exitcode" +:+ dq +:+ ": " +:+ exitcode +:+ ", "
    +:+ dq +:+ "elapsedtime" +:+ dq +:+ ": " +:+ dq +:+ elapsedtime +:+ dq
    +:+ "}" +:+ lf in
  let value_error :=
    "{" +:+ dq +:+ "error" +:+ dq +:+ ": " +:+ dq +:+ "value error" +:+ dq
    +:+ "}" +:+ lf in
  popen_calls evs = [cmd] ∧
  path ∈ cmd ∧ PyStr batchsize ∈ cmd ∧ PyStr index ∈ cmd ∧
  answered_all env (trace w) evs ∧
  ∃ taskid,
    taskids evs = [taskid] ∧
    ((∃ exc,
        EvPopen cmd (Raise exc) ∈ evs ∧
        spawned evs = [] ∧
        registered evs = [] ∧
        sent sock evs = match exc with ValueError => [value_error] | _ => [] end) ∨
     (∃ proc,
        EvPopen cmd (Ok proc) ∈ evs ∧
        spawned evs = [cmd] ∧
        registered evs = [(taskid, proc)] ∧
        ((EvSend sock (taskstart taskid) (Raise OSError) ∈ evs ∧
          sent sock evs = [taskstart taskid]) ∨
         (EvSend sock (taskstart taskid) (Ok ()) ∈ evs ∧
          ∃ out err rc,
            EvCommunicate proc out err rc ∈ evs ∧
            if utf8_valid out && utf8_valid err
            then ∃ elapsedtime,
                   sent sock evs = [taskstart taskid;
                                    taskfinish taskid (pretty rc) elapsedtime]
            else sent sock evs = [taskstart taskid; value_error])))).
Proof.
  intros Ha Hp evs batchsize index adaptivebatch cmd dq lf taskstart taskfinish
    value_error.
  pose proof (spawn_command_runs env threadnum d sock w _
                (λ w, select_crawl env threadnum d sock _ _ path w Ha Hp)) as Hrun.
  cbv zeta in Hrun.
  replace (if adaptive_on _ then _ else _) with cmd in Hrun.
  2: { subst cmd adaptivebatch batchsize index. unfold adaptive_on.
       destruct (_ || _); [done | by rewrite app_nil_r]. }
  fold evs in Hrun.
  assert (Hin : path ∈ cmd ∧ PyStr batchsize ∈ cmd ∧ PyStr index ∈ cmd).
  { subst cmd. rewrite !elem_of_app, !elem_of_cons. tauto. }
  destruct Hin as (Hi1 & Hi2 & Hi3).
  split; [exact (task_run_popen_calls _ _ _ _ _ Hrun)|].
  do 3 (split; [done|]).
  split; [apply run_command_answered|].
  clearbody cmd. clear Hi1 Hi2 Hi3.
  task_run_cases Hrun; exists taskid; (split; [by try destruct Hh|]).
  - left. exists e. split; [rewrite !elem_of_app, !elem_of_cons; tauto|].
    destruct Hh as [r| |e Hv Ho]; simpl; rewrite ?Nat.eqb_refl; try done.
    by destruct e.
  - right. exists p. split; [rewrite !elem_of_cons; tauto|].
    do 2 (split; [done|]). left.
    split; [rewrite !elem_of_cons; tauto|]. simpl. by rewrite Nat.eqb_refl.
  - right. exists p. split; [rewrite !elem_of_cons; tauto|].
    do 2 (split; [done|]). right.
    split; [rewrite !elem_of_cons; tauto|].
    exists output, error, returncode. split; [rewrite !elem_of_cons; tauto|].
    rewrite Hv. simpl. by rewrite Nat.eqb_refl.
  - right. exists p. split; [rewrite !elem_of_cons; tauto|].
    do 2 (split; [done|]). right.
    split; [rewrite !elem_of_cons; tauto|].
    exists output, error, returncode. split; [rewrite !elem_of_cons; tauto|].
    rewrite Hv. eexists. simpl. by rewrite Nat.eqb_refl.
Qed.

Lemma crawl_calls_popen_once_witness :
  let env := clocked_env in
  let d := crawl_data in
  let path := PyStr "/data" in
  let sock := 3 in
  let w := empty_world in
  let evs := new_events (run_command env 0 (PyDict d) sock) w in
  let batchsize := resolved env d "batchsize" (cliargs_batchsize env) in
  let index := resolved env d "index" (config_index env) in
  let adaptivebatch := resolved env d "adaptivebatch" (cliargs_adaptivebatch env) in
  let cmd :=
    [config_python_path env; PyStr "-u"; config_diskover_path env;
     PyStr "-b"; PyStr batchsize; PyStr "-i"; PyStr index; PyStr "-d"; path;
     PyStr "-q"]
    ++ (if String.eqb adaptivebatch "True" || String.eqb adaptivebatch "true"
        then [PyStr "-a"] else []) in
  let dq := String "034" EmptyString in
  let lf := String "010" EmptyString in
  let taskstart (taskid : string) :=
    "{" +:+ dq +:+ "msg" +:+ dq +:+ ": " +:+ dq +:+ "taskstart" +:+ dq +:+ ", "
    +:+ dq +:+ "taskid" +:+ dq +:+ ": " +:+ dq +:+ taskid +:+ dq +:+ "}" +:+ lf in
  let taskfinish (taskid exitcode elapsedtime : string) :=
    "{" +:+ dq +:+ "msg" +:+ dq +:+ ": " +:+ dq +:+ "taskfinish" +:+ dq +:+ ", "
    +:+ dq +:+ "taskid" +:+ dq +:+ ": " +:+ dq +:+ taskid +:+ dq +:+ ", "
    +:+ dq +:+ "exitcode" +:+ dq +:+ ": " +:+ exitcode +:+ ", "
    +:+ dq +:+ "elapsedtime" +:+ dq +:+ ": " +:+ dq +:+ elapsedtime +:+ dq
    +:+ "}" +:+ lf in
  let value_error :=
    "{" +:+ dq +:+ "error" +:+ dq +:+ ": " +:+ dq +:+ "value error" +:+ dq
    +:+ "}" +:+ lf in
  d !! "action" = Some (PyStr "crawl") ∧
  d !! "path" = Some path ∧
  cmd = [PyStr "python"; PyStr "-u"; PyStr "/opt/diskover/diskover.py";
         PyStr "-b"; PyStr "50"; PyStr "-i"; PyStr "diskover-index";
         PyStr "-d"; PyStr "/data"; PyStr "-q"] ∧
  spawned evs = [cmd] ∧
  sent sock evs = [taskstart sample_taskid; taskfinish sample_taskid "2" "6s"] ∧
  popen_calls evs = [cmd] ∧
  path ∈ cmd ∧ PyStr batchsize ∈ cmd ∧ PyStr index ∈ cmd ∧
  answered_all env (trace w) evs ∧
  ∃ taskid,
    taskids evs = [taskid] ∧
    ((∃ exc,
        EvPopen cmd (Raise exc) ∈ evs ∧
        spawned evs = [] ∧
        registered evs = [] ∧
        sent sock evs = match exc with ValueError => [value_error] | _ => [] end) ∨
     (∃ proc,
        EvPopen cmd (Ok proc) ∈ evs ∧
        spawned evs = [cmd] ∧
        registered evs = [(taskid, proc)] ∧
        ((EvSend sock (taskstart taskid) (Raise OSError) ∈ evs ∧
          sent sock evs = [taskstart taskid]) ∨
         (EvSend sock (taskstart taskid) (Ok ()) ∈ evs ∧
          ∃ out err rc,
            EvCommunicate proc out err rc ∈ evs ∧
            if utf8_valid out && utf8_valid err
            then ∃ elapsedtime,
                   sent sock evs = [taskstart taskid;
                                    taskfinish taskid (pretty rc) elapsedtime]
            else sent sock evs = [taskstart taskid; value_error])))).
Proof.
  do 5 (split; [reflexivity|]).
  apply (crawl_calls_popen_once clocked_env 0 crawl_data (PyStr "/data") 3 empty_world);
    reflexivity.
Defined.

(** ** The life of a task *)




(** ** The adaptive-batch flag *)

(** C6, as stated, fails: [{"action": "finddupes", "adaptivebatch": "TRUE"}]
    is a spawn-variant command whose [adaptivebatch] compares equal to "true"
    when case is ignored, yet the argument vector handed to [Popen] has no
    [-a]. *)
Lemma adaptive_uppercase_not_appended :
  let d := finddupes_upper in
  let adaptivebatch :=
    resolved quiet_env d "adaptivebatch" (cliargs_adaptivebatch quiet_env) in
  let calls :=
    popen_calls (new_events (run_command quiet_env 0 (PyDict d) 3) empty_world) in
  spawn_variant d ∧
  adaptivebatch = "TRUE" ∧
  spec_adaptive_on adaptivebatch = true ∧
  calls = [[PyStr "python"; PyStr "-u"; PyStr "/opt/diskover/diskover.py";
            PyStr "-b"; PyStr "50"; PyStr "-i"; PyStr "diskover-index";
            PyStr "--finddupes"; PyStr "-q"]] ∧
  ∀ cmd, cmd ∈ calls → PyStr "-a" ∉ cmd.
Proof.
  split; [right; left; reflexivity|].
  repeat (split; [reflexivity|]).
  intros cmd Hcmd. vm_compute in Hcmd.
  apply list_elem_of_singleton in Hcmd as ->.
  rewrite !elem_of_cons, elem_of_nil. intros H.
  repeat (destruct H as [H|H]; [discriminate H|]). done.
Qed.

(** C6, amended.  For a crawl, finddupes or reindex command, [Popen] is
    called once; its argument vector is the one built for the action,
    followed by [-a] exactly when the resolved [adaptivebatch] (the command's
    field if present, else the caller's default, passed through [str()]) is
    the string "True" or the string "true", and nothing is appended for any
    other value. *)
Theorem adaptive_flag_exact_match env threadnum d sock w :
  spawn_variant d →
  let adaptivebatch := resolved env d "adaptivebatch" (cliargs_adaptivebatch env) in
  let calls := popen_calls (new_events (run_command env threadnum (PyDict d) sock) w) in
  ∃ cmd,
    (select_command env threadnum (PyDict d) sock
       (resolved env d "index" (config_index env))
       (resolved env d "batchsize" (cliargs_batchsize env)) w).1 = Ok (Some cmd) ∧
    (adaptivebatch = "True" ∨ adaptivebatch = "true" → calls = [cmd ++ [PyStr "-a"]]) ∧
    (adaptivebatch ≠ "True" → adaptivebatch ≠ "true" → calls = [cmd]).
Proof.
  intros Hd adaptivebatch calls.
  destruct (spawn_variant_selects env threadnum d sock
              (resolved env d "index" (config_index env))
              (resolved env d "batchsize" (cliargs_batchsize env)) Hd) as [cmd Hsel].
  exists cmd. split; [by rewrite Hsel|].
  pose proof (task_run_popen_calls _ _ _ _ _
                (spawn_command_runs env threadnum d sock w cmd Hsel)) as Hcalls.
  fold adaptivebatch calls in Hcalls. rewrite Hcalls. unfold adaptive_on.
  split.
  - intros [->| ->]; reflexivity.
  - intros H1 H2. apply String.eqb_neq in H1, H2. by rewrite H1, H2.
Qed.

Lemma adaptive_flag_exact_match_witness :
  let d := finddupes_true in
  let adaptivebatch :=
    resolved quiet_env d "adaptivebatch" (cliargs_adaptivebatch quiet_env) in
  let calls := popen_calls (new_events (run_command quiet_env 0 (PyDict d) 3)
                              empty_world) in
  spawn_variant d ∧
  adaptivebatch = "True" ∧
  ∃ cmd,
    (select_command quiet_env 0 (PyDict d) 3
       (resolved quiet_env d "index" (config_index quiet_env))
       (resolved quiet_env d "batchsize" (cliargs_batchsize quiet_env))
       empty_world).1 = Ok (Some cmd) ∧
    (adaptivebatch = "True" ∨ adaptivebatch = "true" → calls = [cmd ++ [PyStr "-a"]]) ∧
    (adaptivebatch ≠ "True" → adaptivebatch ≠ "true" → calls = [cmd]).
Proof.
  split; [right; left; reflexivity|]. split; [reflexivity|].
  apply (adaptive_flag_exact_match quiet_env 0 finddupes_true 3 empty_world).
  right; left; reflexivity.
Defined.

(** Other spellings of "true" do not add the flag; the JSON boolean does. *)
Lemma adaptive_on_examples :
  adaptive_on "TRUE" = false ∧ adaptive_on "tRue" = false ∧
  adaptive_on "true" = true ∧ adaptive_on (py_str quiet_env (PyBool true)) = true.
Proof. repeat split. Qed.

(** ** Reindex *)

(** C7.  For a reindex command with a path, the argument vector handed to
    [Popen] is [python -u diskover -b batchsize -i index -d path FLAG -q]
    (followed by [-a] when adaptive batching is on), where FLAG is [-r] when
    [recursive] is absent, [-R] when it is the string "true", and [-r] for
    any other value.  The vector has exactly one flag slot: it holds one
    reindex flag more than its five variable operands contribute. *)
Theorem reindex_flag_by_recursive env threadnum d path sock w :
  d !! "action" = Some (PyStr "reindex") →
  d !! "path" = Some path →
  let batchsize := resolved env d "batchsize" (cliargs_batchsize env) in
  let index := resolved env d "index" (config_index env) in
  let adaptivebatch := resolved env d "adaptivebatch" (cliargs_adaptivebatch env) in
  ∃ flag cmd,
    popen_calls (new_events (run_command env threadnum (PyDict d) sock) w) = [cmd] ∧
    cmd = [config_python_path env; PyStr "-u"; config_diskover_path env;
           PyStr "-b"; PyStr batchsize; PyStr "-i"; PyStr index;
           PyStr "-d"; path; PyStr flag; PyStr "-q"]
          ++ (if adaptive_on adaptivebatch then [PyStr "-a"] else []) ∧
    (d !! "recursive" = None → flag = "-r") ∧
    (d !! "recursive" = Some (PyStr "true") → flag = "-R") ∧
    (∀ v, d !! "recursive" = Some v → v ≠ PyStr "true" → flag = "-r") ∧
    count_reindex_flags cmd =
      1 + count_reindex_flags [config_python_path env; config_diskover_path env;
                               PyStr batchsize; PyStr index; path].
Proof.
  intros Ha Hp batchsize index adaptivebatch.
  pose proof (task_run_popen_calls _ _ _ _ _
                (spawn_command_runs env threadnum d sock w _
                   (λ w, select_reindex env threadnum d sock _ _ path w Ha Hp)))
    as Hcalls.
  fold batchsize index adaptivebatch in Hcalls.
  eexists _, _. split; [exact Hcalls|]. split.
  { destruct (adaptive_on adaptivebatch); reflexivity. }
  split; [by intros ->|]. split; [by intros ->|]. split.
  { intros v -> Hv. apply py_eq_str_false in Hv. simpl. by rewrite Hv. }
  unfold count_reindex_flags.
  destruct (adaptive_on adaptivebatch); simpl;
    destruct (py_eq_str _ "true"); simpl;
    repeat (destruct (is_reindex_flag _); simpl); reflexivity.
Qed.

Lemma reindex_flag_by_recursive_witness :
  let d := reindex_data in
  let env := quiet_env in
  let batchsize := resolved env d "batchsize" (cliargs_batchsize env) in
  let index := resolved env d "index" (config_index env) in
  let adaptivebatch := resolved env d "adaptivebatch" (cliargs_adaptivebatch env) in
  d !! "action" = Some (PyStr "reindex") ∧
  d !! "path" = Some (PyStr "/data") ∧
  ∃ flag cmd,
    popen_calls (new_events (run_command env 0 (PyDict d) 3) empty_world) = [cmd] ∧
    cmd = [config_python_path env; PyStr "-u"; config_diskover_path env;
           PyStr "-b"; PyStr batchsize; PyStr "-i"; PyStr index;
           PyStr "-d"; PyStr "/data"; PyStr flag; PyStr "-q"]
          ++ (if adaptive_on adaptivebatch then [PyStr "-a"] else []) ∧
    (d !! "recursive" = None → flag = "-r") ∧
    (d !! "recursive" = Some (PyStr "true") → flag = "-R") ∧
    (∀ v, d !! "recursive" = Some v → v ≠ PyStr "true" → flag = "-r") ∧
    count_reindex_flags cmd =
      1 + count_reindex_flags [config_python_path env; config_diskover_path env;
                               PyStr batchsize; PyStr index; PyStr "/data"].
Proof.
  split; [reflexivity|]. split; [reflexivity|].
  apply (reindex_flag_by_recursive quiet_env 0 reindex_data (PyStr "/data") 3 empty_world);
    reflexivity.
Defined.

(** ** Kill *)

Lemma run_command_kill env threadnum d taskid sock w :
  d !! "action" = Some (PyStr "kill") →
  d !! "taskid" = Some taskid →
  run_command env threadnum (PyDict d) sock w =
  (Ok (),
   log_event
     (EvSend sock msg_taskkilled
        (if sock_send env (trace w) sock msg_taskkilled then Ok () else Raise OSError))
     w).
Proof.
  intros Ha Ht. rewrite run_command_dict. unfold try_except, bind at 1.
  rewrite (select_kill env threadnum d sock _ _ taskid w Ha Ht).
  unfold bind, send. by destruct (sock_send env (trace w) sock msg_taskkilled).
Qed.



(** ** Commands that cannot be run *)

(** C2.  A recognized action without its required field ([crawl] or
    [reindex] without [path], [kill] without [taskid]) makes [run_command]
    raise [KeyError] and leave the world as it was: no process is started
    and the registry is untouched, but no frame at all is sent, the
    [{"error": "value error"}] reply included, because the [except
    ValueError] clause does not catch a [KeyError]. *)
Theorem missing_field_raises_KeyError env threadnum d sock w :
  missing_required_field d →
  run_command env threadnum (PyDict d) sock w = (Raise KeyError, w).
Proof.
  intros Hd. rewrite run_command_dict.
  unfold try_except, select_command, bind, lift, py_getitem.
  destruct Hd as [[Ha Hp]|[[Ha Hp]|[Ha Hp]]]; rewrite Ha; simpl; rewrite ?Hp.
  - reflexivity.
  - destruct (d !! "recursive"); reflexivity.
  - reflexivity.
Qed.

Lemma missing_field_raises_KeyError_witness :
  missing_required_field crawl_without_path ∧
  run_command quiet_env 0 (PyDict crawl_without_path) 3 empty_world
  = (Raise KeyError, empty_world).
Proof.
  split; [left; split; reflexivity|].
  apply (missing_field_raises_KeyError quiet_env 0 crawl_without_path 3 empty_world).
  left; split; reflexivity.
Defined.

(** C4.  A command without an [action] field makes [run_command] raise
    [KeyError] and leave the world as it was: nothing is started or
    registered, and no frame is sent, the [{"error": "unknown action"}]
    reply included. *)
Theorem missing_action_raises_KeyError env threadnum d sock w :
  d !! "action" = None →
  run_command env threadnum (PyDict d) sock w = (Raise KeyError, w).
Proof.
  intros Ha. rewrite run_command_dict. unfold try_except, bind.
  by rewrite select_no_action.
Qed.

Lemma missing_action_raises_KeyError_witness :
  no_action !! "action" = None ∧
  run_command quiet_env 0 (PyDict no_action) 3 empty_world
  = (Raise KeyError, empty_world).
Proof.
  split; [reflexivity|].
  by apply (missing_action_raises_KeyError quiet_env 0 no_action 3 empty_world).
Defined.

Lemma run_command_unknown env threadnum d action sock w :
  d !! "action" = Some action →
  unrecognized action →
  run_command env threadnum (PyDict d) sock w =
  (Ok (),
   log_event
     (EvSend sock msg_unknown_action
        (if sock_send env (trace w) sock msg_unknown_action
         then Ok () else Raise OSError))
     w).
Proof.
  intros Ha Hu. rewrite run_command_dict. unfold try_except, bind at 1.
  rewrite (select_unknown env threadnum d sock _ _ action w Ha Hu).
  unfold bind, send. by destruct (sock_send env (trace w) sock msg_unknown_action).
Qed.

(** X9.  The part of C4 the code does implement: an [action] that is
    present but is none of the four recognized strings gets the
    unknown-action frame and nothing else happens. *)
Lemma unknown_action_reply env threadnum d action sock w :
  d !! "action" = Some action →
  unrecognized action →
  let run := run_command env threadnum (PyDict d) sock in
  (run w).1 = Ok () ∧
  sent sock (new_events run w) = [msg_unknown_action] ∧
  json_compact msg_unknown_action
    = "{" +:+ q "error" +:+ ":" +:+ q "unknown action" +:+ "}" ∧
  length (new_events run w) = 1 ∧
  socket_tasks (run w).2 = socket_tasks w.
Proof.
  intros Ha Hu run. unfold run, new_events.
  rewrite (run_command_unknown env threadnum d action sock w Ha Hu).
  simpl. rewrite drop_app_length. simpl. by rewrite Nat.eqb_refl.
Qed.

(** A [KeyError] out of [run_command] is caught by no clause of the handler:
    it ends the worker thread, with the connection still open. *)
Lemma KeyError_ends_worker env threadnum c data command_dict w :
  sock_recv env (trace w) (clientsock c) BUFF = Some data →
  utf8_valid data = true →
  data ≠ "" → data ≠ "ping" →
  json_loads env (last_item (str_split data CRLF)) = Some command_dict →
  (∀ w', run_command env threadnum command_dict (clientsock c) w' = (Raise KeyError, w')) →
  handle_connection env threadnum c w
  = (Raise KeyError, log_event (EvRecv (clientsock c) BUFF (Ok data)) w).
Proof.
  intros Hrecv Hutf He Hp Hjson Hrun.
  apply String.eqb_neq in He, Hp.
  unfold handle_connection, try_except, bind, recv, lift, loads, bytes_decode.
  rewrite Hrecv. simpl. rewrite Hutf, He, Hp, Hjson, Hrun. reflexivity.
Qed.

(** ** The handler and undecodable requests *)

Lemma handle_invalid_json env threadnum c data w :
  sock_recv env (trace w) (clientsock c) BUFF = Some data →
  utf8_valid data = true →
  data ≠ "" → data ≠ "ping" →
  json_loads env (last_item (str_split data CRLF)) = None →
  handle_connection env threadnum c w
  = (Raise TypeError, log_event (EvRecv (clientsock c) BUFF (Ok data)) w).
Proof.
  intros Hrecv Hutf He Hp Hjson.
  apply String.eqb_neq in He, Hp.
  unfold handle_connection, try_except, bind, recv, lift, loads, bytes_decode.
  rewrite Hrecv. simpl. rewrite Hutf, He, Hp, Hjson. reflexivity.
Qed.

(** C3.  When the request is neither empty nor [ping] and the text after its
    last CRLF is not valid JSON, the turn of the handler ends with a
    [TypeError] raised inside the [except (ValueError, TypeError)] clause
    (the concatenation of [bytes] with the exception object): the dispatcher
    is not run, nothing is started or registered, and nothing is sent on the
    connection, the [{"msg": "error", ...}] reply included; the only event is
    the [recv]. *)
Theorem invalid_json_gets_no_reply env threadnum c data w :
  sock_recv env (trace w) (clientsock c) BUFF = Some data →
  utf8_valid data = true →
  data ≠ "" → data ≠ "ping" →
  json_loads env (last_item (str_split data CRLF)) = None →
  let turn := handle_connection env threadnum c in
  (turn w).1 = Raise TypeError ∧
  new_events turn w = [EvRecv (clientsock c) BUFF (Ok data)] ∧
  sent (clientsock c) (new_events turn w) = [] ∧
  popen_calls (new_events turn w) = [] ∧
  socket_tasks (turn w).2 = socket_tasks w.
Proof.
  intros Hrecv Hutf He Hp Hjson turn. unfold turn, new_events.
  rewrite (handle_invalid_json env threadnum c data w Hrecv Hutf He Hp Hjson).
  simpl. rewrite drop_app_length. done.
Qed.

Lemma invalid_json_gets_no_reply_witness :
  let env := bad_request_env in
  let w := empty_world in
  let turn := handle_connection env 0 peer in
  sock_recv env (trace w) (clientsock peer) BUFF = Some "{bad" ∧
  utf8_valid "{bad" = true ∧
  "{bad" ≠ "" ∧ "{bad" ≠ "ping" ∧
  json_loads env (last_item (str_split "{bad" CRLF)) = None ∧
  (turn w).1 = Raise TypeError ∧
  new_events turn w = [EvRecv (clientsock peer) BUFF (Ok "{bad")] ∧
  sent (clientsock peer) (new_events turn w) = [] ∧
  popen_calls (new_events turn w) = [] ∧
  socket_tasks (turn w).2 = socket_tasks w.
Proof.
  split; [reflexivity|]. split; [reflexivity|].
  split; [discriminate|]. split; [discriminate|]. split; [reflexivity|].
  apply (invalid_json_gets_no_reply bad_request_env 0 peer "{bad" empty_world);
    try reflexivity; discriminate.
Defined.

(** C5.  On the JSON decode failure path the client connection is not
    closed: the worker thread that took the connection from the queue ends
    with the [TypeError], after the [recv] and before any [close()], and does
    not go on to the connections that follow. *)
Theorem decode_failure_leaves_connection_open env threadnum c gets data w :
  sock_recv env (trace w) (clientsock c) BUFF = Some data →
  utf8_valid data = true →
  data ≠ "" → data ≠ "ping" →
  json_loads env (last_item (str_split data CRLF)) = None →
  let thread := socket_thread_handler env threadnum (c :: gets) in
  (thread w).1 = Died TypeError ∧
  new_events thread w = [EvRecv (clientsock c) BUFF (Ok data)] ∧
  closes (clientsock c) (new_events thread w) = 0.
Proof.
  intros Hrecv Hutf He Hp Hjson thread. unfold thread, new_events. simpl.
  rewrite (handle_invalid_json env threadnum c data w Hrecv Hutf He Hp Hjson).
  simpl. rewrite drop_app_length. done.
Qed.

Lemma decode_failure_leaves_connection_open_witness :
  let env := bad_request_env in
  let w := empty_world in
  let thread := socket_thread_handler env 0 [peer; Client 4 "10.0.0.8"] in
  sock_recv env (trace w) (clientsock peer) BUFF = Some "{bad" ∧
  utf8_valid "{bad" = true ∧
  "{bad" ≠ "" ∧ "{bad" ≠ "ping" ∧
  json_loads env (last_item (str_split "{bad" CRLF)) = None ∧
  (thread w).1 = Died TypeError ∧
  new_events thread w = [EvRecv (clientsock peer) BUFF (Ok "{bad")] ∧
  closes (clientsock peer) (new_events thread w) = 0.
Proof.
  split; [reflexivity|]. split; [reflexivity|].
  split; [discriminate|]. split; [discriminate|]. split; [reflexivity|].
  apply (decode_failure_leaves_connection_open bad_request_env 0 peer
           [Client 4 "10.0.0.8"] "{bad" empty_world);
    try reflexivity; discriminate.
Defined.

(** The paths of C5 the code does get right: a turn of the loop that ends
    normally, so that the worker goes on to the next connection, has closed
    the connection exactly once; a turn that ends the thread has not closed
    it.  In no turn is it closed twice. *)

Lemma closes_app sock evs evs' :
  closes sock (evs ++ evs') = closes sock evs + closes sock evs'.
Proof. unfold closes. by rewrite omap_app, length_app. Qed.

Lemma dispatcher_never_closes sock evs :
  forallb (dispatcher_event sock) evs = true → closes sock evs = 0.
Proof.
  induction evs as [|ev evs IH]; [done|]. simpl.
  intros [Hev Hevs]%andb_prop. specialize (IH Hevs).
  unfold closes in *. by destruct ev.
Qed.

Lemma turn_closes env threadnum c w :
  closes (clientsock c) (new_events (handle_connection env threadnum c) w)
  = match (handle_connection env threadnum c w).1 with
    | Ok _ => 1
    | Raise _ => 0
    end.
Proof.
  set (sock := clientsock c).
  assert (Hone : ∀ r evs,
            closes sock evs = 0 →
            closes sock (EvRecv sock BUFF r :: evs ++ [EvClose sock; EvTaskDone]) = 1).
  { intros r evs Hevs. change (?ev :: evs ++ ?l) with ([ev] ++ evs ++ l).
    rewrite !closes_app, Hevs. unfold closes. simpl. by rewrite Nat.eqb_refl. }
  assert (Hnone : ∀ r evs,
            closes sock evs = 0 → closes sock (EvRecv sock BUFF r :: evs) = 0).
  { intros r evs Hevs. change (?ev :: evs) with ([ev] ++ evs).
    by rewrite closes_app, Hevs. }
  unfold new_events.
  destruct (handle_connection env threadnum c w) as [r w'] eqn:Hturn.
  simpl. revert Hturn.
  unfold handle_connection, try_except, bind at 1, recv.
  fold sock.
  destruct (sock_recv env (trace w) sock BUFF) as [data|]; simpl.
  2: { intros [= <- <-]. trace_norm. by apply (Hone _ []). }
  unfold bind at 1, lift, bytes_decode.
  destruct (utf8_valid data); simpl.
  2: { intros [= <- <-]. trace_norm. by apply (Hnone _ []). }
  destruct (String.eqb data ""); simpl.
  { intros [= <- <-]. trace_norm. by apply (Hone _ []). }
  unfold bind at 1.
  destruct (String.eqb data "ping"); simpl.
  { unfold send. simpl.
    destruct (sock_send env _ sock "pong"); simpl; intros [= <- <-]; trace_norm.
    - by apply (Hone _ [_]).
    - by apply (Hone _ [_]). }
  unfold bind at 1, loads, lift.
  destruct (json_loads env _) as [command_dict|]; simpl.
  2: { intros [= <- <-]. trace_norm. by apply (Hnone _ []). }
  match goal with
  | |- context [run_command env threadnum command_dict sock ?w1] =>
      destruct (emits_new_events _ (run_command env threadnum command_dict sock) w1
                  (run_command_emits env threadnum command_dict sock))
        as (Ht & HP%dispatcher_never_closes & _ & _);
      destruct (run_command env threadnum command_dict sock w1) as [[[]|e] w2]
  end; simpl in *.
  - intros [= <- <-]. simpl. rewrite Ht. trace_norm. by apply Hone.
  - destruct e; simpl; intros [= <- <-]; simpl; rewrite Ht; trace_norm;
      by first [apply Hone | apply Hnone].
Qed.

Lemma continuing_turn_closes_once env threadnum c w :
  (handle_connection env threadnum c w).1 = Ok () →
  closes (clientsock c) (new_events (handle_connection env threadnum c) w) = 1.
Proof. intros H. by rewrite turn_closes, H. Qed.

(** A decoded command that is not an object fails at the first subscript;
    the [TypeError] is not caught in [run_command]. *)
Lemma run_command_not_dict env threadnum v sock w :
  (∀ d, v ≠ PyDict d) →
  run_command env threadnum v sock w = (Raise TypeError, w).
Proof.
  intros Hv. unfold run_command, bind at 1. by rewrite resolve_not_dict.
Qed.

(** ** Worked runs *)

Example ping_turn :
  handle_connection (sample_env (Some "ping") None) 0 peer empty_world
  = (Ok (),
     {| socket_tasks := ∅; clientlist := [];
        trace := [EvRecv 3 1024 (Ok "ping"); EvSend 3 "pong" (Ok ());
                  EvClose 3; EvTaskDone] |}).
Proof. reflexivity. Qed.

Example peer_close_turn :
  new_events (handle_connection quiet_env 0 peer) empty_world
  = [EvRecv 3 1024 (Ok ""); EvClose 3; EvTaskDone].
Proof. reflexivity. Qed.

Example socket_error_turn :
  new_events (handle_connection (sample_env None None) 0 peer) empty_world
  = [EvRecv 3 1024 (Raise OSError); EvClose 3; EvTaskDone].
Proof. reflexivity. Qed.

Example curl_headers_are_dropped :
  last_item (str_split ("POST / HTTP/1.1" +:+ CRLF +:+ "Host: x" +:+ CRLF +:+ CRLF
                        +:+ "{}") CRLF) = "{}".
Proof. reflexivity. Qed.

Example crawl_turn :
  new_events (handle_connection (sample_env (Some "{...}") (Some (PyDict crawl_data)))
                0 peer) empty_world
  = [EvRecv 3 1024 (Ok "{...}");
     EvTime 1;
     EvUuid "3f2b8c1e-7a55-4d0c-9c7e-5b1f0a2d4e61";
     EvPopen [PyStr "python"; PyStr "-u"; PyStr "/opt/diskover/diskover.py";
              PyStr "-b"; PyStr "50"; PyStr "-i"; PyStr "diskover-index";
              PyStr "-d"; PyStr "/data"; PyStr "-q"] (Ok 7);
     EvRegister "3f2b8c1e-7a55-4d0c-9c7e-5b1f0a2d4e61" 7;
     EvSend 3 (msg_taskstart "3f2b8c1e-7a55-4d0c-9c7e-5b1f0a2d4e61") (Ok ());
     EvCommunicate 7 "" "" 0;
     EvTime 7;
     EvSend 3 (msg_taskfinish "3f2b8c1e-7a55-4d0c-9c7e-5b1f0a2d4e61" "0" "0:00:03")
       (Ok ());
     EvClose 3; EvTaskDone].
Proof. reflexivity. Qed.

Example crawl_without_path_ends_worker :
  socket_thread_handler
    (sample_env (Some "{...}") (Some (PyDict crawl_without_path))) 0
    [peer; Client 4 "10.0.0.8"] empty_world
  = (Died KeyError,
     {| socket_tasks := ∅; clientlist := [];
        trace := [EvRecv 3 1024 (Ok "{...}")] |}).
Proof. reflexivity. Qed.

(** ** The client list *)

Lemma accepted_app evs evs' : accepted (evs ++ evs') = accepted evs ++ accepted evs'.
Proof. apply omap_app. Qed.

Lemma handler_accepts_nothing sock evs :
  forallb (handler_event sock) evs = true → accepted evs = [].
Proof.
  induction evs as [|ev evs IH]; [done|]. simpl.
  intros [Hev Hevs]%andb_prop. specialize (IH Hevs).
  unfold accepted in *. by destruct ev.
Qed.

(** A turn of a worker neither touches [clientlist] nor accepts anything. *)
Lemma handle_connection_clients env threadnum c w :
  clientlist (handle_connection env threadnum c w).2 = clientlist w ∧
  accepted (trace (handle_connection env threadnum c w).2) = accepted (trace w).
Proof.
  destruct (emits_new_events _ (handle_connection env threadnum c) w
              (handle_connection_emits env threadnum c)) as (Ht & HP & Hc & _).
  split; [done|].
  rewrite Ht, accepted_app, (handler_accepts_nothing _ _ HP). apply app_nil_r.
Qed.





(** * Further properties of the handler loop *)

(** X1.  A request that is exactly [ping] is answered with [pong]: the turn
    calls [recv], hands [pong] to [send], closes the connection, calls
    [task_done()] and goes on to the next connection, whether or not the
    send went through.  The dispatcher is not run. *)
Theorem ping_gets_pong env threadnum c w :
  sock_recv env (trace w) (clientsock c) BUFF = Some "ping" →
  let sock := clientsock c in
  let turn := handle_connection env threadnum c in
  (turn w).1 = Ok () ∧
  (∃ r, new_events turn w
        = [EvRecv sock BUFF (Ok "ping"); EvSend sock "pong" r;
           EvClose sock; EvTaskDone]) ∧
  sent sock (new_events turn w) = ["pong"] ∧
  socket_tasks (turn w).2 = socket_tasks w.
Proof.
  intros Hrecv sock turn. unfold turn, new_events.
  unfold handle_connection, try_except, bind, recv, lift, bytes_decode, send,
    close, task_done.
  rewrite Hrecv. simpl. fold sock.
  destruct (sock_send env _ sock "pong"); simpl; trace_norm.
  all: unfold sent; simpl; rewrite Nat.eqb_refl; eauto.
Qed.

Lemma ping_gets_pong_witness :
  let env := sample_env (Some "ping") None in
  let sock := clientsock peer in
  let turn := handle_connection env 0 peer in
  let w := empty_world in
  sock_recv env (trace w) sock BUFF = Some "ping" ∧
  (turn w).1 = Ok () ∧
  (∃ r, new_events turn w
        = [EvRecv sock BUFF (Ok "ping"); EvSend sock "pong" r;
           EvClose sock; EvTaskDone]) ∧
  sent sock (new_events turn w) = ["pong"] ∧
  socket_tasks (turn w).2 = socket_tasks w.
Proof.
  split; [reflexivity|].
  by apply (ping_gets_pong (sample_env (Some "ping") None) 0 peer empty_world).
Defined.

(** X2.  When [recv] returns no bytes (the peer closed) or raises
    [socket.error], nothing is sent: the turn closes the connection, calls
    [task_done()] and goes on to the next connection. *)
Theorem silent_turn_closes env threadnum c w :
  sock_recv env (trace w) (clientsock c) BUFF = Some "" ∨
  sock_recv env (trace w) (clientsock c) BUFF = None →
  let sock := clientsock c in
  let turn := handle_connection env threadnum c in
  (turn w).1 = Ok () ∧
  (∃ r, new_events turn w = [EvRecv sock BUFF r; EvClose sock; EvTaskDone]) ∧
  sent sock (new_events turn w) = [] ∧
  socket_tasks (turn w).2 = socket_tasks w.
Proof.
  intros Hrecv sock turn. unfold turn, new_events.
  unfold handle_connection, try_except, bind, recv, lift, bytes_decode,
    close, task_done.
  destruct Hrecv as [-> | ->]; simpl; trace_norm; eauto.
Qed.

Lemma silent_turn_closes_witness :
  let env := sample_env None None in
  let sock := clientsock peer in
  let turn := handle_connection env 0 peer in
  let w := empty_world in
  (sock_recv env (trace w) sock BUFF = Some "" ∨
   sock_recv env (trace w) sock BUFF = None) ∧
  (turn w).1 = Ok () ∧
  (∃ r, new_events turn w = [EvRecv sock BUFF r; EvClose sock; EvTaskDone]) ∧
  sent sock (new_events turn w) = [] ∧
  socket_tasks (turn w).2 = socket_tasks w.
Proof.
  split; [by right|].
  apply (silent_turn_closes (sample_env None None) 0 peer empty_world). by right.
Defined.

(** X3.  A request that is not valid UTF-8 raises [UnicodeDecodeError] in
    [data.decode('utf-8')]; the [except (ValueError, TypeError)] clause then
    raises [TypeError] on its concatenation, so the turn ends the worker
    thread: nothing is sent and the connection is not closed. *)
Theorem undecodable_bytes_end_worker env threadnum c data w :
  sock_recv env (trace w) (clientsock c) BUFF = Some data →
  utf8_valid data = false →
  let turn := handle_connection env threadnum c in
  turn w = (Raise TypeError, log_event (EvRecv (clientsock c) BUFF (Ok data)) w) ∧
  sent (clientsock c) (new_events turn w) = [] ∧
  closes (clientsock c) (new_events turn w) = 0.
Proof.
  intros Hrecv Hutf turn.
  assert (Hturn : turn w
            = (Raise TypeError, log_event (EvRecv (clientsock c) BUFF (Ok data)) w)).
  { unfold turn, handle_connection, try_except, bind, recv, lift, bytes_decode.
    rewrite Hrecv. simpl. by rewrite Hutf. }
  split; [done|]. unfold new_events. rewrite Hturn. by trace_norm.
Qed.

Lemma undecodable_bytes_end_worker_witness :
  let data := String "255" "" in
  let env := sample_env (Some data) None in
  let turn := handle_connection env 0 peer in
  let w := empty_world in
  sock_recv env (trace w) (clientsock peer) BUFF = Some data ∧
  utf8_valid data = false ∧
  turn w = (Raise TypeError, log_event (EvRecv (clientsock peer) BUFF (Ok data)) w) ∧
  sent (clientsock peer) (new_events turn w) = [] ∧
  closes (clientsock peer) (new_events turn w) = 0.
Proof.
  split; [reflexivity|]. split; [reflexivity|].
  by apply (undecodable_bytes_end_worker
              (sample_env (Some (String "255" "")) None) 0 peer (String "255" "")
              empty_world).
Defined.

(** X4.  A request that decodes to JSON which is not an object (a list, a
    string, a number, [true], [null]) fails in [run_command] at the first
    subscript with [TypeError]; the handler's clause for it raises
    [TypeError] again, so the turn ends the worker thread with the [recv] as
    its only event: nothing is sent, started or registered and the
    connection is not closed. *)
Theorem non_object_command_ends_worker env threadnum c data v w :
  sock_recv env (trace w) (clientsock c) BUFF = Some data →
  utf8_valid data = true →
  data ≠ "" → data ≠ "ping" →
  json_loads env (last_item (str_split data CRLF)) = Some v →
  (∀ d, v ≠ PyDict d) →
  handle_connection env threadnum c w
  = (Raise TypeError, log_event (EvRecv (clientsock c) BUFF (Ok data)) w).
Proof.
  intros Hrecv Hutf He Hp Hjson Hv.
  apply String.eqb_neq in He, Hp.
  unfold handle_connection, try_except, bind, recv, lift, loads, bytes_decode.
  rewrite Hrecv. simpl. rewrite Hutf, He, Hp, Hjson.
  by rewrite (run_command_not_dict env threadnum v (clientsock c) _ Hv).
Qed.

Lemma non_object_command_ends_worker_witness :
  let v := PyList [PyInt 1] in
  let env := sample_env (Some "[1]") (Some v) in
  let w := empty_world in
  sock_recv env (trace w) (clientsock peer) BUFF = Some "[1]" ∧
  utf8_valid "[1]" = true ∧ "[1]" ≠ "" ∧ "[1]" ≠ "ping" ∧
  json_loads env (last_item (str_split "[1]" CRLF)) = Some v ∧
  (∀ d, v ≠ PyDict d) ∧
  handle_connection env 0 peer w
  = (Raise TypeError, log_event (EvRecv (clientsock peer) BUFF (Ok "[1]")) w).
Proof.
  split; [reflexivity|]. split; [reflexivity|].
  split; [discriminate|]. split; [discriminate|]. split; [reflexivity|].
  split; [discriminate|].
  apply (non_object_command_ends_worker
           (sample_env (Some "[1]") (Some (PyList [PyInt 1]))) 0 peer "[1]"
           (PyList [PyInt 1]) empty_world);
    try reflexivity; discriminate.
Defined.

Lemma run_command_incomplete env threadnum d sock w :
  d !! "action" = None ∨ missing_required_field d →
  run_command env threadnum (PyDict d) sock w = (Raise KeyError, w).
Proof.
  intros Hd. rewrite run_command_dict.
  unfold try_except, select_command, bind, lift, py_getitem.
  destruct Hd as [Ha|[[Ha Hf]|[[Ha Hf]|[Ha Hf]]]]; rewrite Ha; simpl;
    rewrite ?Hf; try reflexivity.
  destruct (d !! "recursive"); reflexivity.
Qed.

(** X5.  A JSON object without [action], or with a recognized action but
    without the field it requires, ends the worker thread that reads it: the
    [KeyError] of the subscript passes every [except] clause of
    [run_command] and of the handler; the [recv] is the only event, so
    nothing is sent and the connection is not closed. *)
Theorem incomplete_command_ends_worker env threadnum c data d w :
  sock_recv env (trace w) (clientsock c) BUFF = Some data →
  utf8_valid data = true →
  data ≠ "" → data ≠ "ping" →
  json_loads env (last_item (str_split data CRLF)) = Some (PyDict d) →
  d !! "action" = None ∨ missing_required_field d →
  handle_connection env threadnum c w
  = (Raise KeyError, log_event (EvRecv (clientsock c) BUFF (Ok data)) w).
Proof.
  intros Hrecv Hutf He Hp Hjson Hd.
  apply (KeyError_ends_worker env threadnum c data (PyDict d) w); try done.
  intros w'. by apply run_command_incomplete.
Qed.

Lemma incomplete_command_ends_worker_witness :
  let env := sample_env (Some "{...}") (Some (PyDict crawl_without_path)) in
  let w := empty_world in
  sock_recv env (trace w) (clientsock peer) BUFF = Some "{...}" ∧
  utf8_valid "{...}" = true ∧ "{...}" ≠ "" ∧ "{...}" ≠ "ping" ∧
  json_loads env (last_item (str_split "{...}" CRLF))
    = Some (PyDict crawl_without_path) ∧
  (crawl_without_path !! "action" = None ∨ missing_required_field crawl_without_path) ∧
  handle_connection env 0 peer w
  = (Raise KeyError, log_event (EvRecv (clientsock peer) BUFF (Ok "{...}")) w).
Proof.
  split; [reflexivity|]. split; [reflexivity|].
  split; [discriminate|]. split; [discriminate|]. split; [reflexivity|].
  split; [right; left; split; reflexivity|].
  apply (incomplete_command_ends_worker
           (sample_env (Some "{...}") (Some (PyDict crawl_without_path))) 0 peer
           "{...}" crawl_without_path empty_world);
    try reflexivity; try discriminate.
  right; left; split; reflexivity.
Defined.

(** ** The shape of a turn *)

Lemma recvs_app evs evs' : recvs (evs ++ evs') = recvs evs ++ recvs evs'.
Proof. apply omap_app. Qed.

Lemma puts_app evs evs' : puts (evs ++ evs') = puts evs ++ puts evs'.
Proof. apply omap_app. Qed.

Lemma task_dones_app evs evs' :
  task_dones (evs ++ evs') = task_dones evs + task_dones evs'.
Proof. unfold task_dones. by rewrite omap_app, length_app. Qed.

Lemma dispatcher_events_only sock evs :
  forallb (dispatcher_event sock) evs = true →
  recvs evs = [] ∧ task_dones evs = 0 ∧ puts evs = [] ∧
  ∀ sock', closes sock' evs = 0.
Proof.
  induction evs as [|ev evs IH]; [done|]. simpl.
  intros [Hev Hevs]%andb_prop. destruct (IH Hevs) as (Hr & Ht & Hp & Hc).
  unfold recvs, task_dones, puts, closes in *.
  destruct ev; try discriminate; simpl; repeat split; try done; apply Hc.
Qed.

(** A turn is the [recv], then what the ping reply or the dispatcher does,
    then [close()] and [task_done()] when, and only when, the turn ends
    normally. *)
Lemma turn_shape env threadnum c w :
  ∃ r evs,
    new_events (handle_connection env threadnum c) w
    = EvRecv (clientsock c) BUFF r :: evs
      ++ match (handle_connection env threadnum c w).1 with
         | Ok _ => [EvClose (clientsock c); EvTaskDone]
         | Raise _ => []
         end ∧
    forallb (dispatcher_event (clientsock c)) evs = true.
Proof.
  set (sock := clientsock c).
  unfold new_events.
  destruct (handle_connection env threadnum c w) as [r w'] eqn:Hturn.
  simpl. revert Hturn.
  unfold handle_connection, try_except, bind at 1, recv.
  fold sock.
  destruct (sock_recv env (trace w) sock BUFF) as [data|]; simpl.
  2: { intros [= <- <-]. trace_norm. by eexists _, []. }
  unfold bind at 1, lift, bytes_decode.
  destruct (utf8_valid data); simpl.
  2: { intros [= <- <-]. trace_norm. by eexists _, []. }
  destruct (String.eqb data ""); simpl.
  { intros [= <- <-]. trace_norm. by eexists _, []. }
  unfold bind at 1.
  destruct (String.eqb data "ping"); simpl.
  { unfold send. simpl.
    destruct (sock_send env _ sock "pong"); simpl; intros [= <- <-]; trace_norm;
      eexists _, [_]; (split; [reflexivity|]); simpl; by rewrite Nat.eqb_refl. }
  unfold bind at 1, loads, lift.
  destruct (json_loads env _) as [command_dict|]; simpl.
  2: { intros [= <- <-]. trace_norm. by eexists _, []. }
  match goal with
  | |- context [run_command env threadnum command_dict sock ?w1] =>
      destruct (emits_new_events _ (run_command env threadnum command_dict sock) w1
                  (run_command_emits env threadnum command_dict sock))
        as (Ht & HP & _ & _);
      destruct (run_command env threadnum command_dict sock w1) as [[[]|e] w2]
  end; simpl in *.
  - intros [= <- <-]. simpl. rewrite Ht. trace_norm. by eexists _, _.
  - destruct e; simpl; intros [= <- <-]; simpl; rewrite Ht; trace_norm;
      eexists _, _; rewrite ?app_nil_r; by split.
Qed.

Lemma turn_counts env threadnum c w :
  let turn := handle_connection env threadnum c in
  let evs := new_events turn w in
  let n := match (turn w).1 with Ok _ => 1 | Raise _ => 0 end in
  recvs evs = [clientsock c] ∧
  closes (clientsock c) evs = n ∧
  task_dones evs = n ∧
  (∀ sock, sock ≠ clientsock c → closes sock evs = 0) ∧
  puts evs = [].
Proof.
  intros turn evs n. subst turn evs n.
  destruct (turn_shape env threadnum c w) as (r & evs & -> & Hevs).
  destruct (dispatcher_events_only _ _ Hevs) as (Hr & Ht & Hp & Hc).
  change (EvRecv ?s ?b r :: evs ++ ?l) with ([EvRecv s b r] ++ evs ++ l).
  rewrite !recvs_app, !closes_app, !task_dones_app, !puts_app, Hr, Ht, Hp, !Hc.
  split; [by destruct (handle_connection env threadnum c w).1|].
  split.
  { destruct (handle_connection env threadnum c w).1; unfold closes; simpl;
      by rewrite ?Nat.eqb_refl. }
  split; [by destruct (handle_connection env threadnum c w).1|].
  split; [|by destruct (handle_connection env threadnum c w).1].
  intros sock Hsock. apply Nat.eqb_neq in Hsock. rewrite Nat.eqb_sym in Hsock.
  rewrite !closes_app, Hc.
  destruct (handle_connection env threadnum c w).1; unfold closes; simpl;
    by rewrite ?Hsock.
Qed.

(** X6.  In every turn of the handler loop, whatever the request and
    whatever the outside answers: [recv] is called once, on the connection
    taken from the queue; no other connection is closed; and the connection
    is closed exactly as often as [task_done()] is called, which is once when
    the turn ends normally and not at all when an exception ends the worker
    thread. *)
Theorem turn_accounting env threadnum c w :
  let turn := handle_connection env threadnum c in
  let evs := new_events turn w in
  let n := match (turn w).1 with Ok _ => 1 | Raise _ => 0 end in
  recvs evs = [clientsock c] ∧
  closes (clientsock c) evs = n ∧
  task_dones evs = n ∧
  (∀ sock, sock ≠ clientsock c → closes sock evs = 0) ∧
  puts evs = [].
Proof. apply turn_counts. Qed.

(** ** A worker thread over several connections *)

Lemma thread_runs env threadnum gets w :
  ∃ evs,
    trace (socket_thread_handler env threadnum gets w).2 = trace w ++ evs ∧
    match (socket_thread_handler env threadnum gets w).1 with
    | Waiting =>
        recvs evs = clientsock <$> gets ∧
        task_dones evs = length gets ∧
        ∀ sock, closes sock evs = uses_of sock gets
    | Died e =>
        ∃ served c rest,
          gets = served ++ c :: rest ∧
          recvs evs = clientsock <$> (served ++ [c]) ∧
          task_dones evs = length served ∧
          ∀ sock, closes sock evs = uses_of sock served
    end.
Proof.
  revert w. induction gets as [|c gets IH]; intros w; simpl.
  { exists []. by rewrite app_nil_r. }
  destruct (emits_new_events _ (handle_connection env threadnum c) w
              (handle_connection_emits env threadnum c)) as (Ht & _ & _ & _).
  pose proof (turn_counts env threadnum c w) as (Hr & Hc & Hd & Hother & _).
  set (tevs := new_events (handle_connection env threadnum c) w) in *.
  assert (Hcl : ∀ sock, closes sock tevs
                = if Nat.eqb (clientsock c) sock
                  then match (handle_connection env threadnum c w).1 with
                       | Ok _ => 1 | Raise _ => 0 end
                  else 0).
  { intros sock. destruct (Nat.eqb_spec (clientsock c) sock) as [<-|Hne]; [done|].
    apply Hother. congruence. }
  destruct (handle_connection env threadnum c w) as [[[]|e] w1]; simpl in *.
  - destruct (IH w1) as (evs & Hevs & Hrest). exists (tevs ++ evs).
    split; [by rewrite Hevs, Ht, app_assoc|].
    destruct (socket_thread_handler env threadnum gets w1).1.
    + destruct Hrest as (Hr' & Hd' & Hc').
      rewrite recvs_app, task_dones_app, Hr, Hd, Hr', Hd'.
      repeat split; try done.
      intros sock. rewrite closes_app, Hcl, Hc'. unfold uses_of. simpl.
      by destruct (Nat.eqb (clientsock c) sock).
    + destruct Hrest as (served & c' & rest & -> & Hr' & Hd' & Hc').
      exists (c :: served), c', rest.
      rewrite recvs_app, task_dones_app, Hr, Hd, Hr', Hd'.
      repeat split; try done.
      intros sock. rewrite closes_app, Hcl, Hc'. unfold uses_of. simpl.
      by destruct (Nat.eqb (clientsock c) sock).
  - exists tevs. split; [done|]. exists [], c, gets.
    repeat split; try done. intros sock. rewrite Hcl.
    by destruct (Nat.eqb (clientsock c) sock).
Qed.

(** X7.  A worker thread serves the connections it takes from the queue one
    after the other, in the order taken.  When it is back in [q.get()] it
    has called [recv] once on each, called [task_done()] once for each, and
    closed each socket as often as it was handed out.  When an exception
    ended it, it did so for the connections before the fatal one only: the
    fatal one was read but neither closed nor marked done, and the ones
    after it were never read. *)
Theorem worker_serves_in_order env threadnum gets w :
  let thread := socket_thread_handler env threadnum gets in
  let evs := new_events thread w in
  match (thread w).1 with
  | Waiting =>
      recvs evs = clientsock <$> gets ∧
      task_dones evs = length gets ∧
      ∀ sock, closes sock evs = uses_of sock gets
  | Died e =>
      ∃ served c rest,
        gets = served ++ c :: rest ∧
        recvs evs = clientsock <$> (served ++ [c]) ∧
        task_dones evs = length served ∧
        ∀ sock, closes sock evs = uses_of sock served
  end.
Proof.
  intros thread evs.
  destruct (thread_runs env threadnum gets w) as (evs' & Ht & H).
  subst evs. by rewrite (new_events_app thread w evs' Ht).
Qed.

(** * Further properties of [run_command] *)

(** X8.  Whatever the decoded command is (an object or not), [run_command]
    stays within its part: it never calls [recv], [close()] or
    [task_done()], sends on no socket but the one it was given, leaves
    [clientlist] as it was, and changes [socket_tasks] only by the registry
    writes it records, in order. *)
Theorem run_command_keeps_to_its_socket env threadnum v sock w :
  let run := run_command env threadnum v sock in
  let evs := new_events run w in
  trace (run w).2 = trace w ++ evs ∧
  recvs evs = [] ∧
  task_dones evs = 0 ∧
  (∀ sock', closes sock' evs = 0) ∧
  (∀ sock', sock' ≠ sock → sent sock' evs = []) ∧
  clientlist (run w).2 = clientlist w ∧
  socket_tasks (run w).2 = foldl register_event (socket_tasks w) evs.
Proof.
  intros run evs.
  destruct (emits_new_events _ run w (run_command_emits env threadnum v sock))
    as (Ht & HP & Hc & Hs).
  fold evs in Ht, HP, Hs.
  destruct (dispatcher_events_only _ _ HP) as (Hr & Hd & _ & Hcl).
  repeat split; try done.
  intros sock' Hne. clearbody evs. clear -HP Hne.
  induction evs as [|ev evs IH]; [done|]. simpl in HP.
  apply andb_prop in HP as [Hev Hevs]. specialize (IH Hevs).
  unfold sent in *. destruct ev; try done. simpl in *.
  apply Nat.eqb_eq in Hev as ->.
  apply Nat.eqb_neq in Hne. rewrite Nat.eqb_sym in Hne. by rewrite Hne.
Qed.

Lemma unknown_action_reply_witness :
  let run := run_command quiet_env 0 (PyDict delete_data) 3 in
  let w := empty_world in
  delete_data !! "action" = Some (PyStr "delete") ∧
  unrecognized (PyStr "delete") ∧
  (run w).1 = Ok () ∧
  sent 3 (new_events run w) = [msg_unknown_action] ∧
  json_compact msg_unknown_action
    = "{" +:+ q "error" +:+ ":" +:+ q "unknown action" +:+ "}" ∧
  length (new_events run w) = 1 ∧
  socket_tasks (run w).2 = socket_tasks w.
Proof.
  split; [reflexivity|].
  assert (Hu : unrecognized (PyStr "delete")) by (repeat split; discriminate).
  split; [exact Hu|].
  by apply (unknown_action_reply quiet_env 0 delete_data (PyStr "delete") 3 empty_world).
Defined.

(** X10.  The command line of a crawl is
    [python -u diskover -b B -i I -d path -q] and that of a finddupes is
    [python -u diskover -b B -i I --finddupes -q], each followed by [-a] when
    adaptive batching is on.  B is [str()] of the command's [batchsize] when
    it has one and of the caller's default otherwise; I is [str()] of the
    command's [index] when it has one and of the configured index otherwise.
    A finddupes command needs no [path] and passes none. *)
Theorem crawl_and_finddupes_command_line env threadnum d sock w :
  let B := py_str env (default (cliargs_batchsize env) (d !! "batchsize")) in
  let I := py_str env (default (config_index env) (d !! "index")) in
  let A := py_str env (default (cliargs_adaptivebatch env) (d !! "adaptivebatch")) in
  let tail := if adaptive_on A then [PyStr "-a"] else [] in
  let calls := popen_calls (new_events (run_command env threadnum (PyDict d) sock) w) in
  (∀ path,
     d !! "action" = Some (PyStr "crawl") → d !! "path" = Some path →
     calls = [[config_python_path env; PyStr "-u"; config_diskover_path env;
               PyStr "-b"; PyStr B; PyStr "-i"; PyStr I; PyStr "-d"; path;
               PyStr "-q"] ++ tail]) ∧
  (d !! "action" = Some (PyStr "finddupes") →
   calls = [[config_python_path env; PyStr "-u"; config_diskover_path env;
             PyStr "-b"; PyStr B; PyStr "-i"; PyStr I; PyStr "--finddupes";
             PyStr "-q"] ++ tail]).
Proof.
  intros B I A tail calls. split.
  - intros path Ha Hp.
    pose proof (task_run_popen_calls _ _ _ _ _
                  (spawn_command_runs env threadnum d sock w _
                     (λ w, select_crawl env threadnum d sock _ _ path w Ha Hp)))
      as Hcalls.
    subst calls. rewrite Hcalls. subst tail A. unfold resolved.
    by destruct (adaptive_on _).
  - intros Ha.
    pose proof (task_run_popen_calls _ _ _ _ _
                  (spawn_command_runs env threadnum d sock w _
                     (λ w, select_finddupes env threadnum d sock _ _ w Ha)))
      as Hcalls.
    subst calls. rewrite Hcalls. subst tail A. unfold resolved.
    by destruct (adaptive_on _).
Qed.

Lemma crawl_and_finddupes_command_line_witness :
  popen_calls (new_events (run_command quiet_env 0 (PyDict finddupes_data) 3)
                 empty_world)
  = [[PyStr "python"; PyStr "-u"; PyStr "/opt/diskover/diskover.py";
      PyStr "-b"; PyStr "100"; PyStr "-i"; PyStr "diskover-index";
      PyStr "--finddupes"; PyStr "-q"]].
Proof.
  exact (proj2 (crawl_and_finddupes_command_line quiet_env 0 finddupes_data 3
                  empty_world) eq_refl).
Defined.

(** ** When a started task goes wrong *)

Lemma string_length_app (s t : string) :
  String.length (s +:+ t) = String.length s + String.length t.
Proof. induction s as [|c s IH]; simpl; [done|]. by rewrite IH. Qed.

Lemma string_app_inv_tail (s1 s2 t : string) : s1 +:+ t = s2 +:+ t → s1 = s2.
Proof.
  revert s2. induction s1 as [|c s1 IH]; intros [|c' s2] H; simpl in *.
  - done.
  - apply (f_equal String.length) in H.
    rewrite !string_length_app in H. simpl in H. lia.
  - apply (f_equal String.length) in H.
    rewrite !string_length_app in H. simpl in H. lia.
  - injection H as -> H. by rewrite (IH s2 H).
Qed.

Lemma msg_taskstart_inj taskid taskid' :
  msg_taskstart taskid = msg_taskstart taskid' → taskid = taskid'.
Proof.
  unfold msg_taskstart. simpl. intros H.
  repeat injection H as H.
  exact (string_app_inv_tail taskid taskid' (DQ +:+ "}" +:+ LF) H).
Qed.

Lemma value_error_not_taskstart taskid : msg_value_error ≠ msg_taskstart taskid.
Proof. discriminate. Qed.

Lemma spawn_variant_runs env threadnum d sock w :
  spawn_variant d →
  ∃ cmd, task_run env sock cmd
           (new_events (run_command env threadnum (PyDict d) sock) w)
           (run_command env threadnum (PyDict d) sock w).1.
Proof.
  intros Hd.
  destruct (spawn_variant_selects env threadnum d sock
              (resolved env d "index" (config_index env))
              (resolved env d "batchsize" (cliargs_batchsize env)) Hd) as [cmd Hsel].
  eexists. exact (spawn_command_runs env threadnum d sock w cmd Hsel).
Qed.

Lemma run_command_registry env threadnum v sock w :
  socket_tasks (run_command env threadnum v sock w).2
  = foldl register_event (socket_tasks w)
      (new_events (run_command env threadnum v sock) w).
Proof.
  by destruct (emits_new_events _ (run_command env threadnum v sock) w
                 (run_command_emits env threadnum v sock)) as (_ & _ & _ & Hs).
Qed.

Ltac not_in_run H :=
  rewrite ?elem_of_cons, ?elem_of_nil in H;
  repeat (destruct H as [H|H]; try discriminate H); try done.

(** X11.  When [Popen] raises for a crawl, finddupes or reindex command, no
    process is started and nothing is written to the registry.  What the
    client gets depends on the exception: for an [OSError] (the program
    cannot be started) no frame at all, [run_command] returning normally;
    for a [ValueError] the value-error frame; any other exception leaves
    [run_command] with no frame sent. *)
Theorem failed_popen_registers_nothing env threadnum d sock w argv exc :
  spawn_variant d →
  let run := run_command env threadnum (PyDict d) sock in
  let evs := new_events run w in
  EvPopen argv (Raise exc) ∈ evs →
  spawned evs = [] ∧
  registered evs = [] ∧
  socket_tasks (run w).2 = socket_tasks w ∧
  (exc = OSError → (run w).1 = Ok () ∧ sent sock evs = []) ∧
  (exc = ValueError → sent sock evs = [msg_value_error]) ∧
  (exc ≠ OSError → exc ≠ ValueError → (run w).1 = Raise exc ∧ sent sock evs = []).
Proof.
  intros Hd run evs Hin.
  destruct (spawn_variant_runs env threadnum d sock w Hd) as [cmd' Hrun].
  pose proof (run_command_registry env threadnum (PyDict d) sock w) as Hreg.
  fold run evs in Hrun, Hreg. rewrite Hreg. clear Hreg.
  task_run_cases Hrun; [|by not_in_run Hin..].
  destruct Hh as [r| |e' H1 H2]; simpl in Hin; not_in_run Hin;
    injection Hin as -> ->; simpl; rewrite ?Nat.eqb_refl;
    repeat split; try done; congruence.
Qed.

Lemma failed_popen_registers_nothing_witness :
  let run := run_command no_python_env 0 (PyDict crawl_data) 3 in
  let evs := new_events run empty_world in
  let cmd := [PyStr "python"; PyStr "-u"; PyStr "/opt/diskover/diskover.py";
              PyStr "-b"; PyStr "50"; PyStr "-i"; PyStr "diskover-index";
              PyStr "-d"; PyStr "/data"; PyStr "-q"] in
  spawn_variant crawl_data ∧
  EvPopen cmd (Raise OSError) ∈ evs ∧
  spawned evs = [] ∧
  registered evs = [] ∧
  socket_tasks (run empty_world).2 = socket_tasks empty_world ∧
  (OSError = OSError → (run empty_world).1 = Ok () ∧ sent 3 evs = []) ∧
  (OSError = ValueError → sent 3 evs = [msg_value_error]) ∧
  (OSError ≠ OSError → OSError ≠ ValueError →
   (run empty_world).1 = Raise OSError ∧ sent 3 evs = []).
Proof.
  assert (Hd : spawn_variant crawl_data) by (left; split; [reflexivity | by eexists]).
  split; [exact Hd|].
  assert (Hin : EvPopen
                  [PyStr "python"; PyStr "-u"; PyStr "/opt/diskover/diskover.py";
                   PyStr "-b"; PyStr "50"; PyStr "-i"; PyStr "diskover-index";
                   PyStr "-d"; PyStr "/data"; PyStr "-q"] (Raise OSError)
                ∈ new_events (run_command no_python_env 0 (PyDict crawl_data) 3)
                    empty_world).
  { vm_compute. apply list_elem_of_further, list_elem_of_further, list_elem_of_here. }
  split; [exact Hin|].
  exact (failed_popen_registers_nothing no_python_env 0 crawl_data 3 empty_world
           _ OSError Hd Hin).
Defined.

(** X12.  When the child has run but what it wrote to stdout or stderr is
    not UTF-8, the client gets the taskstart frame and then the value-error
    frame, never a taskfinish frame; the process was started and its entry
    stays in the registry. *)
Theorem undecodable_output_reports_value_error env threadnum d sock w
    proc out err rc :
  spawn_variant d →
  let run := run_command env threadnum (PyDict d) sock in
  let evs := new_events run w in
  EvCommunicate proc out err rc ∈ evs →
  utf8_valid out && utf8_valid err = false →
  ∃ taskid cmd,
    spawned evs = [cmd] ∧
    registered evs = [(taskid, proc)] ∧
    sent sock evs = [msg_taskstart taskid; msg_value_error] ∧
    socket_tasks (run w).2 = <[taskid := proc]> (socket_tasks w).
Proof.
  intros Hd run evs Hin Hbad.
  destruct (spawn_variant_runs env threadnum d sock w Hd) as [cmd' Hrun].
  pose proof (run_command_registry env threadnum (PyDict d) sock w) as Hreg.
  fold run evs in Hrun, Hreg. rewrite Hreg. clear Hreg.
  task_run_cases Hrun.
  - destruct Hh; simpl in Hin; by not_in_run Hin.
  - by not_in_run Hin.
  - not_in_run Hin. injection Hin as <- <- <- <-.
    exists taskid, cmd'. simpl. by rewrite !Nat.eqb_refl.
  - not_in_run Hin. injection Hin as <- <- <- <-. congruence.
Qed.

Lemma undecodable_output_reports_value_error_witness :
  let run := run_command binary_output_env 0 (PyDict crawl_data) 3 in
  let evs := new_events run empty_world in
  spawn_variant crawl_data ∧
  EvCommunicate 7 (String "255" "") "" 1 ∈ evs ∧
  utf8_valid (String "255" "") && utf8_valid "" = false ∧
  ∃ taskid cmd,
    spawned evs = [cmd] ∧
    registered evs = [(taskid, 7)] ∧
    sent 3 evs = [msg_taskstart taskid; msg_value_error] ∧
    socket_tasks (run empty_world).2 = <[taskid := 7]> (socket_tasks empty_world).
Proof.
  assert (Hd : spawn_variant crawl_data) by (left; split; [reflexivity | by eexists]).
  split; [exact Hd|].
  assert (Hin : EvCommunicate 7 (String "255" "") "" 1
                ∈ new_events (run_command binary_output_env 0 (PyDict crawl_data) 3)
                    empty_world).
  { vm_compute. do 5 apply list_elem_of_further. apply list_elem_of_here. }
  split; [exact Hin|]. split; [reflexivity|].
  exact (undecodable_output_reports_value_error binary_output_env 0 crawl_data 3
           empty_world 7 (String "255" "") "" 1 Hd Hin eq_refl).
Defined.

(** X13.  When the taskstart frame cannot be sent (the client has gone), the
    process has already been started and registered; [run_command] returns
    normally without calling [communicate], so the child is never waited
    for, and no further frame is sent. *)
Theorem lost_client_leaves_task_running env threadnum d sock w tid :
  spawn_variant d →
  let run := run_command env threadnum (PyDict d) sock in
  let evs := new_events run w in
  EvSend sock (msg_taskstart tid) (Raise OSError) ∈ evs →
  (run w).1 = Ok () ∧
  sent sock evs = [msg_taskstart tid] ∧
  (∀ p output error returncode, EvCommunicate p output error returncode ∉ evs) ∧
  ∃ cmd p,
    spawned evs = [cmd] ∧
    registered evs = [(tid, p)] ∧
    socket_tasks (run w).2 = <[tid := p]> (socket_tasks w).
Proof.
  intros Hd run evs Hin.
  destruct (spawn_variant_runs env threadnum d sock w Hd) as [cmd' Hrun].
  pose proof (run_command_registry env threadnum (PyDict d) sock w) as Hreg.
  fold run evs in Hrun, Hreg. rewrite Hreg. clear Hreg.
  task_run_cases Hrun; [destruct Hh; simpl in Hin| | |]; not_in_run Hin.
  apply (f_equal (λ ev, match ev with EvSend _ m _ => m | _ => "" end)) in Hin.
  apply msg_taskstart_inj in Hin as <-.
  simpl. rewrite Nat.eqb_refl. repeat split; try done.
  - intros p' o e' rc H. by not_in_run H.
  - by exists cmd', p.
Qed.

Lemma lost_client_leaves_task_running_witness :
  let run := run_command gone_client_env 0 (PyDict crawl_data) 3 in
  let evs := new_events run empty_world in
  spawn_variant crawl_data ∧
  EvSend 3 (msg_taskstart sample_taskid) (Raise OSError) ∈ evs ∧
  (run empty_world).1 = Ok () ∧
  sent 3 evs = [msg_taskstart sample_taskid] ∧
  (∀ p output error returncode, EvCommunicate p output error returncode ∉ evs) ∧
  ∃ cmd p,
    spawned evs = [cmd] ∧
    registered evs = [(sample_taskid, p)] ∧
    socket_tasks (run empty_world).2 = <[sample_taskid := p]> (socket_tasks empty_world).
Proof.
  assert (Hd : spawn_variant crawl_data) by (left; split; [reflexivity | by eexists]).
  split; [exact Hd|].
  assert (Hin : EvSend 3 (msg_taskstart sample_taskid) (Raise OSError)
                ∈ new_events (run_command gone_client_env 0 (PyDict crawl_data) 3)
                    empty_world).
  { vm_compute. do 4 apply list_elem_of_further. apply list_elem_of_here. }
  split; [exact Hin|].
  exact (lost_client_leaves_task_running gone_client_env 0 crawl_data 3 empty_world
           sample_taskid Hd Hin).
Defined.

(** * The request text *)

Lemma string_app_nil_r (s : string) : s +:+ "" = s.
Proof. induction s as [|c s IH]; [done|]. change (String c (s +:+ "") = String c s). by rewrite IH. Qed.

Lemma string_app_assoc (s t u : string) : (s +:+ t) +:+ u = s +:+ t +:+ u.
Proof.
  induction s as [|c s IH]; [done|].
  change (String c ((s +:+ t) +:+ u) = String c (s +:+ t +:+ u)). by rewrite IH.
Qed.

Lemma is_prefix_CRLF s :
  is_prefix CRLF s = true ↔ ∃ s', s = String "013" (String "010" s').
Proof.
  unfold CRLF. destruct s as [|a [|b s]]; cbn [is_prefix].
  - split; [discriminate | by intros [? ?]].
  - rewrite andb_false_r. split; [discriminate | by intros [? ?]].
  - rewrite andb_true_r. split.
    + intros [->%Ascii.eqb_eq ->%Ascii.eqb_eq]%andb_prop. by eexists.
    + intros [s' [= -> -> ->]]. by rewrite !Ascii.eqb_refl.
Qed.

Lemma split_go_step cur c s :
  split_go CRLF 0 cur (String c s)
  = if is_prefix CRLF (String c s)
    then cur :: split_go CRLF 1 "" s
    else split_go CRLF 0 (cur +:+ String c "") s.
Proof. reflexivity. Qed.

Lemma split_go_skip cur c s : split_go CRLF 1 cur (String c s) = split_go CRLF 0 cur s.
Proof. reflexivity. Qed.

Lemma split_go_not_nil skip cur s : split_go CRLF skip cur s ≠ [].
Proof.
  revert skip cur. induction s as [|c s IH]; intros skip cur; [done|].
  destruct skip as [|k]; [|apply IH].
  rewrite split_go_step. destruct (is_prefix CRLF (String c s)); [done | apply IH].
Qed.

Lemma last_cons_not_nil (x : string) l d : l ≠ [] → List.last (x :: l) d = List.last l d.
Proof. by destruct l. Qed.

Lemma split_without_sep body cur :
  str_contains CRLF body = false → split_go CRLF 0 cur body = [cur +:+ body].
Proof.
  revert cur. induction body as [|c body IH]; intros cur H.
  - cbn [split_go]. by rewrite string_app_nil_r.
  - cbn [str_contains] in H. apply orb_false_elim in H as [Hp Hc].
    rewrite split_go_step, Hp, (IH _ Hc). by rewrite string_app_assoc.
Qed.

Lemma last_split_after body :
  str_contains CRLF body = false →
  ∀ (n : nat) (head cur : string),
    (String.length head ≤ n)%nat →
    List.last (split_go CRLF 0 cur (head +:+ CRLF +:+ body)) "" = body.
Proof.
  intros Hbody. induction n as [|n IH]; intros head cur Hn.
  - destruct head; [|simpl in Hn; lia].
    change ("" +:+ CRLF +:+ body) with (String "013" (String "010" body)).
    rewrite split_go_step.
    rewrite (proj2 (is_prefix_CRLF _)) by by eexists.
    rewrite split_go_skip, (split_without_sep body "" Hbody). done.
  - destruct head as [|c head].
    { apply (IH "" cur). simpl. lia. }
    change (String c head +:+ CRLF +:+ body) with (String c (head +:+ CRLF +:+ body)).
    rewrite split_go_step.
    destruct (is_prefix CRLF (String c (head +:+ CRLF +:+ body))) eqn:Hp.
    + apply is_prefix_CRLF in Hp as [s' [= -> Hs']].
      destruct head as [|b head]; [discriminate Hs'|].
      change (String b head +:+ CRLF +:+ body)
        with (String b (head +:+ CRLF +:+ body)) in *.
      rewrite last_cons_not_nil by apply split_go_not_nil.
      rewrite split_go_skip. apply IH. simpl in Hn. lia.
    + apply IH. simpl in Hn. lia.
Qed.

(** X14.  The text handed to [json.loads] is what follows the last CRLF of
    the request: a request without CRLF is parsed whole, and from a request
    made of anything, a CRLF and a CRLF-free body only the body is parsed
    (this is how HTTP-style headers sent by curl are dropped). *)
Theorem payload_is_text_after_last_CRLF body :
  str_contains CRLF body = false →
  last_item (str_split body CRLF) = body ∧
  ∀ head, last_item (str_split (head +:+ CRLF +:+ body) CRLF) = body.
Proof.
  intros Hbody. unfold last_item, str_split. split.
  - by rewrite (split_without_sep body "" Hbody).
  - intros head. by apply (last_split_after body Hbody (String.length head)).
Qed.

Lemma payload_is_text_after_last_CRLF_witness :
  str_contains CRLF "{}" = false ∧
  last_item (str_split "{}" CRLF) = "{}" ∧
  ∀ head, last_item (str_split (head +:+ CRLF +:+ "{}") CRLF) = "{}".
Proof.
  split; [reflexivity|].
  by apply (payload_is_text_after_last_CRLF "{}").
Defined.

(** * Further properties of the server *)

Lemma handle_connection_puts env threadnum c w :
  puts (trace (handle_connection env threadnum c w).2) = puts (trace w).
Proof.
  destruct (emits_new_events _ (handle_connection env threadnum c) w
              (handle_connection_emits env threadnum c)) as (Ht & _ & _ & _).
  destruct (turn_counts env threadnum c w) as (_ & _ & _ & _ & Hp).
  simpl in Hp. by rewrite Ht, puts_app, Hp, app_nil_r.
Qed.

Lemma one_queued_reachable env : reachable env one_queued.
Proof.
  eapply rtc_l; [by apply (step_accept _ initial peer)|].
  eapply rtc_l; [|apply rtc_refl].
  apply (step_put _ {| world := accept_client peer empty_world; queue := [];
                       main := Putting peer; busy := ∅; ended := ∅ |} peer);
      [done|].
  simpl. unfold max_connections. lia.
Qed.

Lemma step_keeps_queue env s s' :
  step env s s' →
  (length (queue s) ≤ max_connections)%nat ∧
  queue s `suffix_of` puts (trace (world s)) ∧
  match main s with
  | Accepting => accepted (trace (world s)) = puts (trace (world s))
  | Putting c => accepted (trace (world s)) = puts (trace (world s)) ++ [c]
  | _ => accepted (trace (world s)) = puts (trace (world s)) ∨
         ∃ c, accepted (trace (world s)) = puts (trace (world s)) ++ [c]
  end →
  (length (queue s') ≤ max_connections)%nat ∧
  queue s' `suffix_of` puts (trace (world s')) ∧
  match main s' with
  | Accepting => accepted (trace (world s')) = puts (trace (world s'))
  | Putting c => accepted (trace (world s')) = puts (trace (world s')) ++ [c]
  | _ => accepted (trace (world s')) = puts (trace (world s')) ∨
         ∃ c, accepted (trace (world s')) = puts (trace (world s')) ++ [c]
  end.
Proof.
  intros Hstep (Hlen & Hsuf & Hacc).
  destruct Hstep as [s c Hm|s c Hm Hlt|s Hm|s Hm|s Hm Hu
    |s threadnum c rest Hm Hn He Hb Hq|s threadnum c Hm Hb];
    simpl.
  - rewrite Hm in Hacc. rewrite accepted_app, puts_app, app_nil_r, Hacc. done.
  - rewrite Hm in Hacc. rewrite accepted_app, puts_app, app_nil_r, Hacc.
    split; [rewrite length_app; simpl; lia|]. split; [|done].
    destruct Hsuf as [k ->]. exists k. by rewrite app_assoc.
  - rewrite Hm in Hacc. auto.
  - destruct Hm as [Hm|[c Hm]]; rewrite Hm in Hacc; eauto.
  - rewrite Hm in Hacc. auto.
  - rewrite Hq in Hlen, Hsuf. simpl in Hlen.
    split; [lia|]. split; [|done].
    destruct Hsuf as [k ->]. exists (k ++ [c]). by rewrite <- app_assoc.
  - by rewrite handle_connection_puts,
      (proj2 (handle_connection_clients env threadnum c (world s))).
Qed.

(** X15.  In every state the server can reach: the queue holds at most
    [max_connections] (5) connections; it holds the connections put last, in
    the order they were put; connections are put on the queue in the order
    they were accepted, each at most once; and at most one accepted
    connection has not been put yet, the one the acceptor holds while it is
    in [q.put]. *)
Theorem queue_discipline env s :
  reachable env s →
  let tr := trace (world s) in
  (length (queue s) ≤ max_connections)%nat ∧
  queue s `suffix_of` puts tr ∧
  puts tr `prefix_of` accepted tr ∧
  (length (accepted tr) ≤ length (puts tr) + 1)%nat ∧
  (main s = Accepting → accepted tr = puts tr) ∧
  (∀ c, main s = Putting c → accepted tr = puts tr ++ [c]).
Proof.
  intros Hreach tr. subst tr.
  assert (Hinv : (length (queue s) ≤ max_connections)%nat ∧
                 queue s `suffix_of` puts (trace (world s)) ∧
                 match main s with
                 | Accepting => accepted (trace (world s)) = puts (trace (world s))
                 | Putting c => accepted (trace (world s)) = puts (trace (world s)) ++ [c]
                 | _ => accepted (trace (world s)) = puts (trace (world s)) ∨
                        ∃ c, accepted (trace (world s)) = puts (trace (world s)) ++ [c]
                 end).
  { revert s Hreach. apply rtc_ind_r.
    - simpl. unfold max_connections. repeat split; [lia | done].
    - intros s s' _ Hstep Hinv. by apply (step_keeps_queue env s s'). }
  destruct Hinv as (Hlen & Hsuf & Hacc).
  assert (Hcases : accepted (trace (world s)) = puts (trace (world s)) ∨
                   ∃ c, accepted (trace (world s)) = puts (trace (world s)) ++ [c]).
  { destruct (main s); eauto. }
  repeat split; try done.
  - destruct Hcases as [->|[c ->]]; [done | by apply prefix_app_r].
  - destruct Hcases as [->|[c ->]]; rewrite ?length_app; simpl; lia.
  - intros Hm. by rewrite Hm in Hacc.
  - intros c Hm. by rewrite Hm in Hacc.
Qed.

Lemma queue_discipline_witness :
  let env := quiet_env in
  let s := one_queued in
  let tr := trace (world s) in
  reachable env s ∧
  (length (queue s) ≤ max_connections)%nat ∧
  queue s `suffix_of` puts tr ∧
  puts tr `prefix_of` accepted tr ∧
  (length (accepted tr) ≤ length (puts tr) + 1)%nat ∧
  (main s = Accepting → accepted tr = puts tr) ∧
  (∀ c, main s = Putting c → accepted tr = puts tr ++ [c]).
Proof.
  split; [apply one_queued_reachable|].
  exact (queue_discipline quiet_env one_queued (one_queued_reachable quiet_env)).
Defined.

(** ** The task registry over the life of the server *)

Lemma registry_dom_grows evs reg :
  dom reg ⊆ dom (foldl register_event reg evs).
Proof.
  revert reg. induction evs as [|ev evs IH]; intros reg; [done|]. simpl.
  etrans; [|apply IH]. destruct ev; simpl; try done.
  rewrite dom_insert. set_solver.
Qed.

Lemma step_replays_registry env s s' :
  step env s s' →
  ∃ evs, trace (world s') = trace (world s) ++ evs ∧
         socket_tasks (world s') = foldl register_event (socket_tasks (world s)) evs.
Proof.
  destruct 1 as [s c Hm|s c Hm Hlt|s Hm|s Hm|s Hm Hu
    |s threadnum c rest Hm Hn He Hb Hq|s threadnum c Hm Hb];
    simpl; try (by exists []; rewrite app_nil_r); try (by eexists [_]).
  destruct (emits_new_events _ (handle_connection env threadnum c) (world s)
              (handle_connection_emits env threadnum c)) as (Ht & _ & _ & Hs).
  eauto.
Qed.

Lemma steps_replay_registry env s s' :
  rtc (step env) s s' →
  ∃ evs, trace (world s') = trace (world s) ++ evs ∧
         socket_tasks (world s') = foldl register_event (socket_tasks (world s)) evs.
Proof.
  induction 1 as [s|s s1 s2 Hstep _ (evs & Ht & Hs)].
  - exists []. by rewrite app_nil_r.
  - destruct (step_replays_registry env s s1 Hstep) as (evs1 & Ht1 & Hs1).
    exists (evs1 ++ evs). by rewrite Ht, Ht1, Hs, Hs1, foldl_app, app_assoc.
Qed.

(** X16.  The task registry is written and never pruned.  In every state the
    server can reach, [socket_tasks] is what the registry writes of the
    history, replayed in order on the empty dict, give; and whatever the
    server does from there, every task id that is registered stays
    registered. *)
Theorem registry_is_never_pruned env s :
  reachable env s →
  socket_tasks (world s) = foldl register_event ∅ (trace (world s)) ∧
  ∀ s', rtc (step env) s s' →
        dom (socket_tasks (world s)) ⊆ dom (socket_tasks (world s')).
Proof.
  intros Hreach. split.
  - destruct (steps_replay_registry env initial s Hreach) as (evs & Ht & Hs).
    simpl in Ht, Hs. by rewrite Ht, Hs.
  - intros s' Hsteps.
    destruct (steps_replay_registry env s s' Hsteps) as (evs & _ & ->).
    apply registry_dom_grows.
Qed.

Lemma crawl_served_reachable : reachable crawl_request_env crawl_served.
Proof.
  eapply rtc_r; [eapply rtc_r; [apply one_queued_reachable|]|].
  - apply (step_get crawl_request_env one_queued 0 peer []); try done.
    unfold max_connections. lia.
  - by apply (step_turn crawl_request_env one_taken 0 peer).
Qed.

Lemma registry_is_never_pruned_witness :
  let env := crawl_request_env in
  let s := crawl_served in
  reachable env s ∧
  socket_tasks (world s) !! sample_taskid = Some 7 ∧
  socket_tasks (world s) = foldl register_event ∅ (trace (world s)) ∧
  ∀ s', rtc (step env) s s' →
        dom (socket_tasks (world s)) ⊆ dom (socket_tasks (world s')).
Proof.
  split; [apply crawl_served_reachable|]. split; [reflexivity|].
  exact (registry_is_never_pruned crawl_request_env crawl_served crawl_served_reachable).
Defined.

(** ** Shutting down *)

Lemma unfinished_tasks_app evs evs' :
  unfinished_tasks (evs ++ evs') = (unfinished_tasks evs + unfinished_tasks evs')%Z.
Proof. unfold unfinished_tasks. rewrite !omap_app, !length_app. lia. Qed.

Lemma unfinished_tasks_dispatcher sock evs :
  forallb (dispatcher_event sock) evs = true → unfinished_tasks evs = 0%Z.
Proof.
  induction evs as [|ev evs IH]; [done|]. simpl.
  intros [Hev Hevs]%andb_prop. specialize (IH Hevs).
  change (ev :: evs) with ([ev] ++ evs). rewrite unfinished_tasks_app, IH.
  by destruct ev.
Qed.

(** A turn that ends normally settles one queue item; a turn that ends the
    thread settles none. *)
Lemma unfinished_tasks_turn env threadnum c w :
  unfinished_tasks (trace (handle_connection env threadnum c w).2)
  = (unfinished_tasks (trace w)
     - match (handle_connection env threadnum c w).1 with
       | Ok _ => 1
       | Raise _ => 0
       end)%Z.
Proof.
  destruct (emits_new_events _ (handle_connection env threadnum c) w
              (handle_connection_emits env threadnum c)) as (Ht & _ & _ & _).
  destruct (turn_shape env threadnum c w) as (r & evs & Hevs & Hdisp).
  rewrite Ht, Hevs.
  change (EvRecv ?s ?b r :: evs ++ ?l) with ([EvRecv s b r] ++ evs ++ l).
  rewrite !unfinished_tasks_app, (unfinished_tasks_dispatcher _ _ Hdisp).
  by destruct (handle_connection env threadnum c w).1.
Qed.

Lemma step_ended_grows env s s' : step env s s' → ended s ⊆ ended s'.
Proof.
  destruct 1; simpl; try done.
  destruct (handle_connection env threadnum c (world s)).1; set_solver.
Qed.

Lemma steps_ended_grow env s s' : rtc (step env) s s' → ended s ⊆ ended s'.
Proof.
  induction 1 as [s|s s1 s2 Hstep _ IH]; [done|].
  etrans; [by apply (step_ended_grows env s s1)|done].
Qed.

(** Every queue item not yet matched by a [task_done()] is on the queue, in
    the hands of a worker that is in its turn, or was in the hands of a
    worker when an exception ended it. *)
Lemma step_keeps_unfinished env s s' :
  step env s s' →
  unfinished_tasks (trace (world s))
    = (Z.of_nat (length (queue s)) + Z.of_nat (size (busy s))
       + Z.of_nat (size (ended s)))%Z ∧
    (∀ i, i ∈ ended s → busy s !! i = None) ∧
    (main s = Exited 0 → unfinished_tasks (trace (world s)) = 0%Z) →
  unfinished_tasks (trace (world s'))
    = (Z.of_nat (length (queue s')) + Z.of_nat (size (busy s'))
       + Z.of_nat (size (ended s')))%Z ∧
    (∀ i, i ∈ ended s' → busy s' !! i = None) ∧
    (main s' = Exited 0 → unfinished_tasks (trace (world s')) = 0%Z).
Proof.
  intros Hstep (Hinv & Hdead & Hexit).
  destruct Hstep as [s c Hm|s c Hm Hlt|s Hm|s Hm|s Hm Hu
    |s threadnum c rest Hm Hn He Hb Hq|s threadnum c Hm Hb];
    simpl; try (split; [done | split; [done | discriminate]]).
  - rewrite unfinished_tasks_app, Hinv. split; [|split; [done|discriminate]].
    unfold unfinished_tasks. simpl. lia.
  - rewrite unfinished_tasks_app, Hinv, length_app. split; [|split; [done|discriminate]].
    unfold unfinished_tasks. simpl. lia.
  - done.
  - rewrite Hinv, Hq, map_size_insert_None by done. simpl. split; [lia|]. split.
    + intros i Hi. rewrite lookup_insert_ne; [by apply Hdead|].
      intros <-. done.
    + intros Hex. rewrite Hex in Hm. done.
  - assert (Hsize : size (busy s) = S (size (delete threadnum (busy s)))).
    { rewrite map_size_delete_Some by eauto.
      assert (size (busy s) ≠ 0); [|lia].
      intros Hz%map_size_empty_iff. by rewrite Hz in Hb. }
    assert (Halive : threadnum ∉ ended s).
    { intros Hin. apply Hdead in Hin. congruence. }
    rewrite unfinished_tasks_turn, Hinv, Hsize. split; [|split].
    + destruct (handle_connection env threadnum c (world s)).1; simpl; [lia|].
      rewrite size_union, size_singleton by set_solver. lia.
    + intros i Hi. destruct (decide (i = threadnum)) as [->|Hne].
      * apply lookup_delete_eq.
      * rewrite lookup_delete_ne by done. apply Hdead.
        destruct (handle_connection env threadnum c (world s)).1; [done|].
        apply elem_of_union in Hi as [Hi%elem_of_singleton|Hi]; done.
    + intros Hex. rewrite Hex in Hm. done.
Qed.

Lemma reachable_unfinished env s :
  reachable env s →
  unfinished_tasks (trace (world s))
    = (Z.of_nat (length (queue s)) + Z.of_nat (size (busy s))
       + Z.of_nat (size (ended s)))%Z ∧
  (∀ i, i ∈ ended s → busy s !! i = None) ∧
  (main s = Exited 0 → unfinished_tasks (trace (world s)) = 0%Z).
Proof.
  revert s. apply rtc_ind_r.
  - split; [reflexivity|]. split; [done | discriminate].
  - intros s s' _ Hstep Hinv. by apply (step_keeps_unfinished env s s').
Qed.

Lemma shut_down_reachable : reachable ping_env shut_down.
Proof.
  assert (Hserved : reachable ping_env ping_served).
  { eapply rtc_r; [eapply rtc_r; [apply one_queued_reachable|]|].
    - apply (step_get ping_env one_queued 0 peer []); try done.
      unfold max_connections. lia.
    - by apply (step_turn ping_env one_taken 0 peer). }
  eapply rtc_r; [eapply rtc_r; [exact Hserved|]|].
  - apply (step_interrupt ping_env ping_served). by left.
  - by apply (step_joined ping_env
                {| world := world ping_served; queue := []; main := Joining;
                   busy := ∅; ended := ∅ |}).
Qed.

Lemma worker_lost_reachable : reachable incomplete_request_env worker_lost.
Proof.
  eapply rtc_r; [eapply rtc_r; [apply one_queued_reachable|]|].
  - apply (step_get incomplete_request_env one_queued 0 peer []); try done.
    unfold max_connections. lia.
  - by apply (step_turn incomplete_request_env one_taken 0 peer).
Qed.

(** X17.  In every state the server can reach, the queue items not yet
    matched by a [task_done()] are as many as the connections on the queue,
    plus the workers that hold a connection and are in their turn, plus the
    workers that an exception has ended.  [sys.exit(0)], the clean shutdown
    after Ctrl-C, is reached only when [q.join()] has returned: then the
    queue is empty, no worker is in its turn, every queue item has been
    matched by a [task_done()], and no worker thread has been ended by an
    exception.  A worker that died with a connection in hand never calls
    [task_done()] for it: once a worker has been ended, the server cannot
    shut down cleanly any more, whatever it does from there. *)
Theorem clean_exit_needs_all_workers env s :
  reachable env s →
  unfinished_tasks (trace (world s))
    = (Z.of_nat (length (queue s)) + Z.of_nat (size (busy s))
       + Z.of_nat (size (ended s)))%Z ∧
  (main s = Exited 0 →
   queue s = [] ∧ busy s = ∅ ∧ ended s = ∅ ∧
   unfinished_tasks (trace (world s)) = 0%Z) ∧
  (ended s ≠ ∅ → ∀ s', rtc (step env) s s' → main s' ≠ Exited 0).
Proof.
  intros Hreach.
  assert (Hclean : ∀ s, reachable env s → main s = Exited 0 →
            queue s = [] ∧ busy s = ∅ ∧ ended s = ∅ ∧
            unfinished_tasks (trace (world s)) = 0%Z).
  { intros s0 Hs0 Hexit.
    destruct (reachable_unfinished env s0 Hs0) as (Hinv & _ & Hzero).
    specialize (Hzero Hexit). rewrite Hzero in Hinv. repeat split; try done.
    - apply length_zero_iff_nil. lia.
    - apply map_size_empty_iff. lia.
    - apply leibniz_equiv, size_empty_iff. lia. }
  split; [apply (reachable_unfinished env s Hreach)|]. split.
  - by apply Hclean.
  - intros Hended s' Hsteps Hexit.
    assert (Hs' : reachable env s') by (unfold reachable; by etrans).
    destruct (Hclean s' Hs' Hexit) as (_ & _ & Hnone & _).
    apply Hended, leibniz_equiv, equiv_empty. rewrite <- Hnone.
    by apply (steps_ended_grow env s s').
Qed.

Lemma clean_exit_needs_all_workers_witness :
  (reachable ping_env shut_down ∧
   main shut_down = Exited 0 ∧
   length (trace (world shut_down)) = 6 ∧
   queue shut_down = [] ∧ busy shut_down = ∅ ∧ ended shut_down = ∅ ∧
   unfinished_tasks (trace (world shut_down)) = 0%Z) ∧
  (reachable incomplete_request_env worker_lost ∧
   ended worker_lost = {[0]} ∧
   unfinished_tasks (trace (world worker_lost)) = 1%Z ∧
   ∀ s', rtc (step incomplete_request_env) worker_lost s' → main s' ≠ Exited 0).
Proof.
  split.
  - split; [exact shut_down_reachable|]. split; [reflexivity|].
    split; [reflexivity|].
    exact (proj1 (proj2 (clean_exit_needs_all_workers ping_env shut_down
                           shut_down_reachable)) eq_refl).
  - split; [exact worker_lost_reachable|]. split; [reflexivity|].
    split; [reflexivity|].
    apply (proj2 (proj2 (clean_exit_needs_all_workers incomplete_request_env
                           worker_lost worker_lost_reachable))).
    intros Hempty. apply (f_equal size) in Hempty. by vm_compute in Hempty.
Defined.


(** * What one command can do *)

Lemma new_events_unchanged {X} (m : World → X * World) w x :
  m w = (x, w) → new_events m w = [].
Proof. unfold new_events. intros ->. simpl. by rewrite drop_all. Qed.

(** Every run of [run_command] is of one of three kinds: nothing happens (the
    command is not an object, or lacks a field, and the exception leaves);
    one frame is sent (kill, unknown action); a task is started. *)
Lemma run_command_cases env threadnum v sock w :
  let run := run_command env threadnum v sock in
  new_events run w = [] ∨
  (∃ message r,
     (message = msg_taskkilled ∨ message = msg_unknown_action) ∧
     new_events run w = [EvSend sock message r]) ∨
  (∃ cmd, task_run env sock cmd (new_events run w) (run w).1).
Proof.
  intros run. subst run.
  assert (Hnone : ∀ d, d !! "action" = None ∨ missing_required_field d →
            new_events (run_command env threadnum (PyDict d) sock) w = []).
  { intros d Hd. eapply new_events_unchanged. by apply run_command_incomplete. }
  assert (Hone : ∀ d message r,
            run_command env threadnum (PyDict d) sock w
              = (Ok (), log_event (EvSend sock message r) w) →
            new_events (run_command env threadnum (PyDict d) sock) w
              = [EvSend sock message r]).
  { intros d message r Hrun. unfold new_events. rewrite Hrun. by trace_norm. }
  destruct v as [| | | | |l|d];
    try (left; eapply new_events_unchanged; by apply run_command_not_dict).
  destruct (d !! "action") as [action|] eqn:Ha; [|left; apply Hnone; by left].
  destruct (py_eq_str action "crawl") eqn:H1.
  { apply py_eq_str_true in H1 as ->.
    destruct (d !! "path") as [path|] eqn:Hp.
    - right; right. eexists.
      exact (spawn_command_runs env threadnum d sock w _
               (λ w, select_crawl env threadnum d sock _ _ path w Ha Hp)).
    - left. apply Hnone. right; left. done. }
  destruct (py_eq_str action "finddupes") eqn:H2.
  { apply py_eq_str_true in H2 as ->. right; right. eexists.
    exact (spawn_command_runs env threadnum d sock w _
             (λ w, select_finddupes env threadnum d sock _ _ w Ha)). }
  destruct (py_eq_str action "reindex") eqn:H3.
  { apply py_eq_str_true in H3 as ->.
    destruct (d !! "path") as [path|] eqn:Hp.
    - right; right. eexists.
      exact (spawn_command_runs env threadnum d sock w _
               (λ w, select_reindex env threadnum d sock _ _ path w Ha Hp)).
    - left. apply Hnone. right; right; left. done. }
  destruct (py_eq_str action "kill") eqn:H4.
  { apply py_eq_str_true in H4 as ->.
    destruct (d !! "taskid") as [taskid|] eqn:Ht.
    - right; left. eexists _, _. split; [by left|].
      apply Hone. by apply run_command_kill with taskid.
    - left. apply Hnone. right; right; right. done. }
  apply py_eq_str_false in H1, H2, H3, H4.
  right; left. eexists _, _. split; [by right|].
  apply Hone. by apply run_command_unknown with action.
Qed.

(** X18.  Whatever the decoded command, one call of [run_command] calls
    [Popen] at most once, writes the registry exactly when a process was
    started, and hands at most two frames to [send], each of them one of the
    five frames of the source: taskstart, taskfinish, taskkilled, unknown
    action, value error. *)
Theorem one_command_one_process env threadnum v sock w :
  let evs := new_events (run_command env threadnum v sock) w in
  (length (popen_calls evs) ≤ 1)%nat ∧
  length (registered evs) = length (spawned evs) ∧
  (length (sent sock evs) ≤ 2)%nat ∧
  Forall reply_frame (sent sock evs).
Proof.
  intros evs. subst evs.
  destruct (run_command_cases env threadnum v sock w)
    as [->|[(m & r & Hm & ->)|[cmd Hrun]]].
  - simpl. repeat split; try done; lia.
  - simpl. rewrite Nat.eqb_refl. simpl. repeat split; try done; try lia.
    apply Forall_singleton. unfold reply_frame. destruct Hm; auto.
  - task_run_cases Hrun; try destruct Hh; simpl; rewrite ?Nat.eqb_refl; simpl;
      (repeat split; try done; try lia);
      repeat apply Forall_cons_2; try apply Forall_nil_2;
      unfold reply_frame; eauto 10.
Qed.
